(** * QuickUMLS installer ([quickumls/install.py]): index-build pipeline

    A shallow embedding of the three functions that make up the build
    pipeline of [install.py]

      - [get_semantic_types]      (the semantic-type loader),
      - [get_mrconso_iterator] and [extract_from_mrconso]
                                  (the vocabulary extractor, two generators),
      - [parse_and_encode_ngrams] (the index builder / dispatcher),

    followed by the properties of the specification that concern them.

    Conventions.
      - A Python unicode string is a list of code points ([pystr]).
      - A text file opened for iteration is the list of its lines.
      - A [dict] is a [gmap]; the [set] of seen terms is a [gset].
      - A generator is the finite trace of what it does when it is driven
        to the end: the values it yields, the lines it prints in between,
        and how it finishes (normal return or an exception).
      - The three on-disk stores are write-only for this module; each is
        represented by the sequence of [insert] calls it receives.
      - Wall-clock time ([time.time()]) only feeds the text of the status
        lines and is left out of them. *)

From Stdlib Require Import ZArith NArith Lia Ascii String.
From stdpp Require Import base option list gmap sets.

Local Open Scope Z_scope.
#[local] Set Warnings "-clear-no-such-hyp".

(** ** Python strings *)

Module PyStr.

Definition pystr : Type := list N.

(** ASCII literal to code points. *)
Definition py (s : string) : pystr :=
  List.map N_of_ascii (list_ascii_of_string s).

(** Code points for which [str.isspace] holds (the set used by
    [str.strip()] without argument on unicode strings). *)
Definition is_space (c : N) : bool :=
  (((9 <=? c) && (c <=? 13)) || ((28 <=? c) && (c <=? 32))
   || (c =? 133) || (c =? 160) || (c =? 5760)
   || ((8192 <=? c) && (c <=? 8202))
   || (c =? 8232) || (c =? 8233) || (c =? 8239) || (c =? 8287)
   || (c =? 12288))%N.

Fixpoint lstrip (s : pystr) : pystr :=
  match s with
  | [] => []
  | c :: s' => if is_space c then lstrip s' else s
  end.

Definition rstrip (s : pystr) : pystr := reverse (lstrip (reverse s)).

(** [s.strip()] *)
Definition strip (s : pystr) : pystr := rstrip (lstrip s).

(** [s.split(sep)] for a one-character separator: never empty. *)
Fixpoint split (sep : N) (s : pystr) : list pystr :=
  match s with
  | [] => [[]]
  | c :: s' =>
      if (c =? sep)%N then [] :: split sep s'
      else match split sep s' with
           | w :: ws => (c :: w) :: ws
           | [] => [[c]]
           end
  end.

(** [sep.join(fields)], used to build input lines in the statements. *)
Fixpoint join (sep : N) (fields : list pystr) : pystr :=
  match fields with
  | [] => []
  | [w] => w
  | w :: ws => w ++ sep :: join sep ws
  end.

Definition bar : N := 124.  (* '|' *)

End PyStr.
Export PyStr.

(** ** Exceptions and results *)

Inductive exn : Type :=
| KeyError (key : pystr)
| ZeroDivisionError.

Inductive result (A : Type) : Type :=
| Ok (a : A)
| Raise (e : exn).
Arguments Ok {A} a.
Arguments Raise {A} e.

Definition bind {A B} (r : result A) (k : A -> result B) : result B :=
  match r with
  | Ok a => k a
  | Raise e => Raise e
  end.

Notation "'let!' x ':=' r 'in' k" := (bind r (fun x => k))
  (at level 10, x name, r at level 100, k at level 200).

#[global] Instance exn_eq_dec : EqDecision exn.
Proof. solve_decision. Defined.

(** ** Dictionaries *)

(** [d[key]] *)
Definition getitem {V} (d : gmap pystr V) (key : pystr) : result V :=
  match d !! key with
  | Some v => Ok v
  | None => Raise (KeyError key)
  end.

(** [dict(pairs)]: pairs are stored left to right, a later pair replaces an
    earlier one with the same key. *)
Definition dict {V} (pairs : list (pystr * V)) : gmap pystr V :=
  fold_left (fun d kv => <[kv.1 := kv.2]> d) pairs ∅.

(** [dict(zip(headers, ln.strip().split('|')))]; [zip] stops at the shorter
    of the two lists. *)
Definition row_content (headers : list pystr) (ln : pystr) : gmap pystr pystr :=
  dict (zip headers (split bar (strip ln))).

(** Field names and sentinels that appear as literals in the source. *)
Definition k_cui : pystr := py "cui".
Definition k_sty : pystr := py "sty".
Definition k_lat : pystr := py "lat".
Definition k_str : pystr := py "str".
Definition k_sab : pystr := py "sab".
Definition k_tty : pystr := py "tty".
Definition k_ispref : pystr := py "ispref".
Definition s_Y : pystr := py "Y".
Definition s_MTH : pystr := py "MTH".
Definition s_PN : pystr := py "PN".

(** ** The semantic-type loader *)

(** One iteration of the loop of [get_semantic_types]:
    [sem_types.setdefault(content['cui'], []).append(content['sty'])]. *)
Definition get_semantic_types_step (headers : list pystr)
    (sem_types : gmap pystr (list pystr)) (ln : pystr)
  : result (gmap pystr (list pystr)) :=
  let content := row_content headers ln in
  let! cui := getitem content k_cui in
  let! sty := getitem content k_sty in
  Ok (<[cui := default [] (sem_types !! cui) ++ [sty]]> sem_types).

Fixpoint get_semantic_types_loop (headers : list pystr) (f : list pystr)
    (sem_types : gmap pystr (list pystr)) : result (gmap pystr (list pystr)) :=
  match f with
  | [] => Ok sem_types
  | ln :: f' =>
      let! sem_types' := get_semantic_types_step headers sem_types ln in
      get_semantic_types_loop headers f' sem_types'
  end.

Definition get_semantic_types (path : list pystr) (headers : list pystr)
  : result (gmap pystr (list pystr)) :=
  get_semantic_types_loop headers path ∅.

(** ** Generators

    The trace of a generator that is driven until it stops: each [Yield]
    is one value handed to the consumer, each [Print] one line written to
    standard output while the generator runs, [Return] the normal end
    ([StopIteration]) and [Throw] an exception that propagates out of the
    generator into its consumer. *)

(** [a / b] under [from __future__ import division]; the quotient is kept
    as the pair of its operands. *)
Record ratio : Type := Ratio { num : Z; den : Z }.

Definition truediv (a b : Z) : result ratio :=
  if b =? 0 then Raise ZeroDivisionError else Ok (Ratio a b).

(** Lines written to standard output by [extract_from_mrconso], without
    the elapsed-time figures. *)
Inductive out_line : Type :=
| LoadingLine                           (* 'loading semantic types...' *)
| DoneLine                              (* 'done in {:.2f} s' *)
| StatusLine (i : Z) (fraction : ratio) (* '{:,} in {:.2f} s ({:.2%}, ...)' *)
| CompletedLine (i : Z) (third : ratio). (* 'COMPLETED: {:,} in ... ({:.1e} s / term)' *)

Inductive gen (A : Type) : Type :=
| Yield (a : A) (rest : gen A)
| Print (ln : out_line) (rest : gen A)
| Return
| Throw (e : exn).
Arguments Yield {A} a rest.
Arguments Print {A} ln rest.
Arguments Return {A}.
Arguments Throw {A} e.

(** Values yielded, lines printed, and the way a trace ends. *)
Fixpoint yields {A} (g : gen A) : list A :=
  match g with
  | Yield a rest => a :: yields rest
  | Print _ rest => yields rest
  | Return | Throw _ => []
  end.

Fixpoint printed {A} (g : gen A) : list out_line :=
  match g with
  | Yield _ rest => printed rest
  | Print ln rest => ln :: printed rest
  | Return | Throw _ => []
  end.

Fixpoint outcome {A} (g : gen A) : option exn :=
  match g with
  | Yield _ rest | Print _ rest => outcome rest
  | Return => None
  | Throw e => Some e
  end.

(** ** The vocabulary iterator *)

Fixpoint get_mrconso_iterator (path : list pystr) (headers : list pystr)
    (lang : pystr) : gen (gmap pystr pystr) :=
  match path with
  | [] => Return
  | ln :: path' =>
      let content := row_content headers ln in
      match getitem content k_lat with
      | Raise e => Throw e
      | Ok lat =>
          if decide (lat ≠ lang)
          then get_mrconso_iterator path' headers lang          (* continue *)
          else Yield content (get_mrconso_iterator path' headers lang)
      end
  end.

(** ** The vocabulary extractor *)

(** The command-line options read by the pipeline. *)
Record options : Type := Options {
  lowercase : bool;
  normalize_unicode : bool;
  language : pystr;
  save_preferred_terms : bool
}.

(** The tuple yielded by [extract_from_mrconso]:
    [(concept_text, cui, sem_types[cui], sab, tty, preferred)]. *)
Record term_record : Type := TermRecord {
  term : pystr;
  cui : pystr;
  stys : list pystr;
  sab : pystr;
  tty : pystr;
  preferred : Z
}.

#[global] Instance ratio_eq_dec : EqDecision ratio.
Proof. solve_decision. Defined.
#[global] Instance out_line_eq_dec : EqDecision out_line.
Proof. solve_decision. Defined.
#[global] Instance term_record_eq_dec : EqDecision term_record.
Proof. solve_decision. Defined.

Section Extractor.

(** Library functions and the helper of [toolbox] that the extractor
    calls: [str.lower], [unidecode.unidecode] and [toolbox.countlines]
    (the line count of the vocabulary file). *)
Variable lower : pystr -> pystr.
Variable unidecode : pystr -> pystr.
Variable countlines : list pystr -> Z.

(** Lines 76-88: the record built from one row that passed the filter. *)
Definition extract_row (opts : options)
    (sem_types : gmap pystr (list pystr)) (content : gmap pystr pystr)
  : result term_record :=
  let! str := getitem content k_str in
  let concept_text := strip str in
  let! cui := getitem content k_cui in
  let! sab := getitem content k_sab in
  let! tty := getitem content k_tty in
  let! ispref := getitem content k_ispref in
  let preferred := if decide (ispref = s_Y) then 1 else 0 in
  let concept_text :=
    if lowercase opts then lower concept_text else concept_text in
  let concept_text :=
    if normalize_unicode opts then unidecode concept_text else concept_text in
  let! stys := getitem sem_types cui in
  Ok (TermRecord concept_text cui stys sab tty preferred).

(** Lines 63-95: the loop over the iterator and the closing summary. *)
Fixpoint extract_loop (mrconso_iterator : gen (gmap pystr pystr))
    (opts : options) (sem_types : gmap pystr (list pystr))
    (total : Z) (i : Z) : gen term_record :=
  match mrconso_iterator with
  | Yield content it' =>
      let i := i + 1 in
      let body :=
        match extract_row opts sem_types content with
        | Raise e => Throw e
        | Ok r => Yield r (extract_loop it' opts sem_types total i)
        end in
      if i mod 100000 =? 0 then
        match truediv i total with
        | Raise e => Throw e
        | Ok fraction => Print (StatusLine i fraction) body
        end
      else body
  | Print ln it' => Print ln (extract_loop it' opts sem_types total i)
  | Return =>
      match truediv i total with
      | Raise e => Throw e
      | Ok third => Print (CompletedLine i third) Return
      end
  | Throw e => Throw e
  end.

Definition extract_from_mrconso (mrconso_path mrsty_path : list pystr)
    (opts : options) (mrconso_header mrsty_header : list pystr)
  : gen term_record :=
  Print LoadingLine
    match get_semantic_types mrsty_path mrsty_header with
    | Raise e => Throw e
    | Ok sem_types =>
        Print DoneLine
          (let mrconso_iterator :=
             get_mrconso_iterator mrconso_path mrconso_header (language opts) in
           let total := countlines mrconso_path in
           extract_loop mrconso_iterator opts sem_types total 0)
    end.

End Extractor.

(** ** The index builder *)

(** State of [parse_and_encode_ngrams]: the dedup set, the three stores
    (each the sequence of its [insert] calls, oldest first), what reached
    standard output, and the exception that ended the run, if any. *)
Record build : Type := Build {
  simstring_terms : gset pystr;
  ss_db : list pystr;
  cuisty_db : list (pystr * pystr * list pystr * Z);
  cuipt_db : list (pystr * pystr);
  stdout : list out_line;
  raised : option exn
}.

Definition build_init : build := Build ∅ [] [] [] [] None.

(** Lines 114-121: the body of the loop for one record. *)
Definition parse_step (cuipt_dir : option pystr) (b : build) (r : term_record)
  : build :=
  let b1 :=
    if decide (term r ∉ simstring_terms b)
    then Build ({[term r]} ∪ simstring_terms b) (ss_db b ++ [term r])
               (cuisty_db b) (cuipt_db b) (stdout b) (raised b)
    else b in
  let b2 :=
    Build (simstring_terms b1) (ss_db b1)
          (cuisty_db b1 ++ [(term r, cui r, stys r, preferred r)])
          (cuipt_db b1) (stdout b1) (raised b1) in
  match cuipt_dir with
  | Some _ =>
      if decide (preferred r = 1 ∧ sab r = s_MTH ∧ tty r = s_PN)
      then Build (simstring_terms b2) (ss_db b2) (cuisty_db b2)
                 (cuipt_db b2 ++ [(cui r, term r)]) (stdout b2) (raised b2)
      else b2
  | None => b2
  end.

Fixpoint parse_loop (extracted_it : gen term_record) (cuipt_dir : option pystr)
    (b : build) : build :=
  match extracted_it with
  | Yield r rest => parse_loop rest cuipt_dir (parse_step cuipt_dir b r)
  | Print ln rest =>
      parse_loop rest cuipt_dir
        (Build (simstring_terms b) (ss_db b) (cuisty_db b) (cuipt_db b)
               (stdout b ++ [ln]) (raised b))
  | Return => b
  | Throw e =>
      Build (simstring_terms b) (ss_db b) (cuisty_db b) (cuipt_db b)
            (stdout b) (Some e)
  end.

(** The destination directories of the similarity index and of the
    semantic-type store do not influence what is inserted and are left
    out; [cuipt_dir] is kept because [None] switches the third store off. *)
Definition parse_and_encode_ngrams (extracted_it : gen term_record)
    (cuipt_dir : option pystr) : build :=
  parse_loop extracted_it cuipt_dir build_init.

Definition cuipt_path : pystr := py "cui-preferred-terms.db".

(** Lines 201-215 of [main]: the extractor feeds the builder.  The field
    schemas are the constants [HEADERS_MRCONSO] and [HEADERS_MRSTY] of the
    [constants] module; the prompts about the destination directory and
    the flag files written beside the stores are not part of the model. *)
Definition main (lower unidecode : pystr -> pystr) (countlines : list pystr -> Z)
    (opts : options) (mrconso mrsty : list pystr)
    (HEADERS_MRCONSO HEADERS_MRSTY : list pystr) : build :=
  let mrconso_iterator :=
    extract_from_mrconso lower unidecode countlines mrconso mrsty opts
                         HEADERS_MRCONSO HEADERS_MRSTY in
  let cuipt_dir := if save_preferred_terms opts then Some cuipt_path else None in
  parse_and_encode_ngrams mrconso_iterator cuipt_dir.

(** ** Vocabulary used by the statements *)

(** The distinct texts of a stream in the order in which they first occur:
    the text at position [k] is kept when none of the [k] texts before it
    is the same (and, in the general form, when it is not in [seen]). *)
Definition first_occurrences_after (seen : gset pystr) (l : list pystr)
  : list pystr :=
  omap (fun k => match l !! k with
                 | Some x => if decide (x ∈ seen ∨ x ∈ take k l) then None
                             else Some x
                 | None => None
                 end)
       (seq 0 (length l)).

Definition first_occurrences (l : list pystr) : list pystr :=
  omap (fun k => match l !! k with
                 | Some x => if decide (x ∈ take k l) then None else Some x
                 | None => None
                 end)
       (seq 0 (length l)).

(** What the builder hands to the semantic-type store and to the
    preferred-term store for a record. *)
Definition cuisty_entry (r : term_record) : pystr * pystr * list pystr * Z :=
  (term r, cui r, stys r, preferred r).

Definition cuipt_entry (r : term_record) : pystr * pystr := (cui r, term r).

(** The preferred-term predicate of line 120. *)
Definition qualifies (r : term_record) : Prop :=
  preferred r = 1 ∧ sab r = s_MTH ∧ tty r = s_PN.

#[global] Instance qualifies_dec r : Decision (qualifies r).
Proof. unfold qualifies. apply _. Defined.

(** Modelled from the spec: the class [CuiPreferredTermDB] is defined in
    [toolbox], which is not part of the sources at hand.  The
    specification describes the store as a map from concept identifier to
    a single term string in which an insertion overwrites any prior entry
    for that identifier; this is the map left by a sequence of [insert]
    calls. *)
Definition CuiPreferredTermDB_contents (calls : list (pystr * pystr))
  : gmap pystr pystr :=
  fold_left (fun db call => <[call.1 := call.2]> db) calls ∅.

(** The [sty] values that the semantic-type table holds for an identifier,
    in file order. *)
Definition table_stys (headers : list pystr) (mrsty : list pystr) (c : pystr)
  : list pystr :=
  omap (fun ln =>
          let content := row_content headers ln in
          if decide (content !! k_cui = Some c) then content !! k_sty else None)
       mrsty.

(** A vocabulary row whose language field equals the filter. *)
Definition lat_matches (headers : list pystr) (lang : pystr) (ln : pystr) : Prop :=
  row_content headers ln !! k_lat = Some lang.

#[global] Instance lat_matches_dec headers lang ln :
  Decision (lat_matches headers lang ln).
Proof. unfold lat_matches. apply _. Defined.

Definition is_status (ln : out_line) : bool :=
  match ln with StatusLine _ _ => true | _ => false end.

(** The status lines for the multiples of 100000 among the [count] row
    counts that start at [first], with the fraction over [total]. *)
Definition status_lines (total first count : Z) : list out_line :=
  (fun j => StatusLine j (Ratio j total))
    <$> filter (fun j => j mod 100000 = 0) (seqZ first count).

Definition is_completed (ln : out_line) : bool :=
  match ln with CompletedLine _ _ => true | _ => false end.

(** A vocabulary row that carries a language code other than the filter. *)
Definition lat_differs (headers : list pystr) (lang : pystr) (ln : pystr) : Prop :=
  match row_content headers ln !! k_lat with
  | Some lat => lat ≠ lang
  | None => False
  end.

#[global] Instance lat_differs_dec headers lang ln :
  Decision (lat_differs headers lang ln).
Proof. unfold lat_differs. destruct (_ !! k_lat); apply _. Defined.

(** The surface text after the two optional transformations of lines
    82-86, as a function of the stripped [str] field. *)
Definition transformed (lower unidecode : pystr -> pystr) (opts : options)
    (stripped : pystr) : pystr :=
  let folded := if lowercase opts then lower stripped else stripped in
  if normalize_unicode opts then unidecode folded else folded.

(** The texts of the transform-ordering scenario; U+00E9 is the letter e
    with an acute accent. *)
Definition Cafe_acute : pystr := py "Caf" ++ [233%N].
Definition cafe_acute : pystr := py "caf" ++ [233%N].
Definition cafe_plain : pystr := py "cafe".
Definition CAFE_upper : pystr := py "CAFE".

(** Two parsed rows that agree on every field but 'str', and on 'str' up
    to surrounding blanks. *)
Definition same_but_blanks (d1 d2 : gmap pystr pystr) : Prop :=
  ∀ key, (key ≠ k_str → d1 !! key = d2 !! key)
         ∧ strip <$> d1 !! key = strip <$> d2 !! key.

(** Proof steps that recur in the lemmas on the printed lines: a run that
    received no row, and the lines that are not of the kind looked for. *)
Ltac no_rows := exists 0%nat; cbn; split; (lia || done).
Ltac map_as_fmap :=
  repeat match goal with
         | |- context [List.map ?f ?l] => change (List.map f l) with (f <$> l)
         end.
Ltac drop_other_lines :=
  rewrite !(decide_False (P := Is_true false)) by (by intros []).

(** ** Small runs *)

Module Examples.

(** A recogniser for ASCII capitals and a two-letter table stand in for
    [str.lower] and [unidecode] on the inputs below. *)
Definition ascii_lower (s : pystr) : pystr :=
  List.map (fun c => if ((65 <=? c) && (c <=? 90))%N then (c + 32)%N else c) s.

(** 'é' is U+00E9, 'É' is U+00C9. *)
Definition latin_lower (s : pystr) : pystr :=
  List.map (fun c => if (c =? 201)%N then 233%N else c) (ascii_lower s).

Definition latin_unidecode (s : pystr) : pystr :=
  List.map (fun c => if (c =? 233)%N then 101%N
                     else if (c =? 201)%N then 69%N else c) s.

(** Modelled from the spec: [countlines] is defined in [toolbox], which
    is not part of the sources at hand; the specification calls its
    result the precomputed total line count of the source file. *)
Definition countlines_spec (f : list pystr) : Z := Z.of_nat (length f).

Definition mrsty_header : list pystr := [k_cui; k_sty].
Definition mrconso_header : list pystr :=
  [k_cui; k_lat; k_ispref; k_sab; k_tty; k_str].

Definition ENG : pystr := py "ENG".

Definition mrsty : list pystr := [py "C0001|T001"; py "C0002|T002"].
Definition mrconso : list pystr :=
  [py "C0001|ENG|Y|MTH|PN|Aspirin";
   py "C0001|ENG|N|SNOMED|SY|acetylsalicylic acid";
   py "C0002|SPA|Y|MTH|PN|aspirina"].

Definition run (opts : options) : build :=
  main latin_lower latin_unidecode countlines_spec opts mrconso mrsty
       mrconso_header mrsty_header.

(** The semantic-type map of [mrsty]. *)
Definition sem_types : gmap pystr (list pystr) :=
  <[py "C0001" := [py "T001"]]> (<[py "C0002" := [py "T002"]]> ∅).

(** A row in the filter language whose identifier the table lacks. *)
Definition unknown_row : pystr := py "C0009|ENG|N|MTH|PN|Unknown".

(** A vocabulary file of 100000 rows, all in another language. *)
Definition spanish_row : pystr := py "C0002|SPA|Y|MTH|PN|aspirina".
Definition spanish_file : list pystr := replicate (Z.to_nat 100000) spanish_row.

(** A vocabulary file of 100000 rows in the filter language. *)
Definition english_row : pystr := py "C0001|ENG|Y|MTH|PN|Aspirin".
Definition english_file : list pystr := replicate (Z.to_nat 100000) english_row.

(** A parsed row whose surface text is "Caf\u00e9" between blanks. *)
Definition cafe_content : gmap pystr pystr :=
  dict [(k_cui, py "C0001"); (k_lat, ENG); (k_ispref, py "Y");
        (k_sab, py "MTH"); (k_tty, py "PN");
        (k_str, 32%N :: Cafe_acute ++ [32%N])].

End Examples.

(** ** The entry point

    Lines 155-215 of [main] with the destination directory, the answers
    typed on standard input and the console made explicit.  The
    destination is what [os.path.exists], [os.listdir], [os.makedirs],
    [shutil.rmtree], [os.mkdir] and [open(.., 'w')] see and change: it is
    missing, or something that is not a directory, or a directory with
    named entries.  The two source tables are read from the installation
    directory, taken here as a directory other than the destination. *)

Inductive node : Type :=
| File (content : pystr)
| Folder.

Inductive destination : Type :=
| Missing
| NotADirectory
| Directory (entries : gmap pystr node).

(** Lines written to the console outside the pipeline: the two questions,
    ['Aborting.'] and the message about [unidecode] on standard error. *)
Inductive console_line : Type :=
| AskCreate
| AskEmpty
| Aborting
| UnidecodeNeeded.

Record world : Type := World {
  dest : destination;
  stdin : list pystr;
  console : list console_line
}.

(** The ways the process ends before or outside the pipeline. *)
Inductive ending : Type :=
| SystemExit (code : Z)
| EOFError
| OSError.

#[global] Instance node_eq_dec : EqDecision node.
Proof. solve_decision. Defined.
#[global] Instance destination_eq_dec : EqDecision destination.
Proof. solve_decision. Defined.
#[global] Instance console_line_eq_dec : EqDecision console_line.
Proof. solve_decision. Defined.
#[global] Instance ending_eq_dec : EqDecision ending.
Proof. solve_decision. Defined.

(** A command runs in a world and either ends the process or returns. *)
Definition cmd (A : Type) : Type := world -> (ending + A) * world.

Definition ret {A} (a : A) : cmd A := fun w => (inr a, w).

Definition then_ {A B} (c : cmd A) (k : A -> cmd B) : cmd B :=
  fun w => match c w with
           | (inl e, w') => (inl e, w')
           | (inr a, w') => k a w'
           end.

Notation "'do!' x ':=' c 'in' k" := (then_ c (fun x => k))
  (at level 10, x name, c at level 100, k at level 200).
Notation "'run!' c 'in' k" := (then_ c (fun _ => k))
  (at level 10, c at level 100, k at level 200).

(** [os.path.exists(opts.destination_path)] *)
Definition path_exists : cmd bool :=
  fun w => (inr (match dest w with Missing => false | _ => true end), w).

(** [six_input(msg)]: the question is written, a line is read; the end of
    the input raises [EOFError]. *)
Definition six_input (msg : console_line) : cmd pystr :=
  fun w =>
    let w' := World (dest w) (tail (stdin w)) (console w ++ [msg]) in
    match stdin w with
    | [] => (inl EOFError, w')
    | answer :: _ => (inr answer, w')
    end.

Definition print (ln : console_line) : cmd unit :=
  fun w => (inr tt, World (dest w) (stdin w) (console w ++ [ln])).

(** [exit(code)] *)
Definition exit {A} (code : Z) : cmd A := fun w => (inl (SystemExit code), w).

(** [os.makedirs(path)] on a path that does not exist. *)
Definition makedirs : cmd unit :=
  fun w => match dest w with
           | Missing => (inr tt, World (Directory ∅) (stdin w) (console w))
           | _ => (inl OSError, w)
           end.

(** [os.listdir(path)] *)
Definition listdir : cmd (list pystr) :=
  fun w => match dest w with
           | Directory entries => (inr (map_to_list entries).*1, w)
           | _ => (inl OSError, w)
           end.

(** [shutil.rmtree(path)] *)
Definition rmtree : cmd unit :=
  fun w => match dest w with
           | Directory _ => (inr tt, World Missing (stdin w) (console w))
           | _ => (inl OSError, w)
           end.

(** [os.mkdir(path)] *)
Definition os_mkdir : cmd unit := makedirs.

(** [open(os.path.join(destination, name), 'w')], the text written, and
    the close. *)
Definition write_file (name content : pystr) : cmd unit :=
  fun w => match dest w with
           | Directory entries =>
               match entries !! name with
               | Some Folder => (inl OSError, w)
               | _ => (inr tt, World (Directory (<[name := File content]> entries))
                                     (stdin w) (console w))
               end
           | _ => (inl OSError, w)
           end.

(** Modelled from the spec: [mkdir] is defined in [toolbox], which is not
    part of the sources at hand; the specification places each store in a
    subdirectory of its own under the destination root, which this call
    creates when it is not there. *)
Definition mkdir (name : pystr) : cmd unit :=
  fun w => match dest w with
           | Directory entries =>
               match entries !! name with
               | Some (File _) => (inl OSError, w)
               | _ => (inr tt, World (Directory (<[name := Folder]> entries))
                                     (stdin w) (console w))
               end
           | _ => (inl OSError, w)
           end.

Definition normalize_unicode_flag : pystr := py "normalize-unicode.flag".
Definition lowercase_flag : pystr := py "lowercase.flag".
Definition language_flag : pystr := py "language.flag".
Definition simstring_dir : pystr := py "umls-simstring.db".
Definition cuisty_dir : pystr := py "cui-semtypes.db".

Section Main.

(** [unidecode] is [None] when the import at the head of the module
    failed and left the name unbound. *)
Variable lower : pystr -> pystr.
Variable unidecode : option (pystr -> pystr).
Variable countlines : list pystr -> Z.

(** [answer.lower().strip() == 'y'] *)
Definition says_yes (answer : pystr) : bool :=
  bool_decide (strip (lower answer) = py "y").

(** Lines 158-178: the destination is created or emptied, on request. *)
Definition ready_destination : cmd unit :=
  do! there := path_exists in
  run! (if negb there then
          do! answer := six_input AskCreate in
          if says_yes answer then makedirs
          else run! print Aborting in exit 1
        else ret tt) in
  do! names := listdir in
  if decide (0 < length names)%nat then
    do! answer := six_input AskEmpty in
    if says_yes answer then run! rmtree in os_mkdir
    else run! print Aborting in exit 1
  else ret tt.

(** Lines 180-199: the flag files that record the options. *)
Definition write_flags (opts : options) : cmd unit :=
  run! (if normalize_unicode opts then
          run! (match unidecode with
                | Some _ => ret tt
                | None => run! print UnidecodeNeeded in exit 1
                end) in
          write_file normalize_unicode_flag []
        else ret tt) in
  run! (if lowercase opts then write_file lowercase_flag [] else ret tt) in
  write_file language_flag (language opts).

Definition prepare_destination (opts : options) : cmd unit :=
  run! ready_destination in write_flags opts.

(** The whole of [main]: after the preparation, [parse_and_encode_ngrams]
    creates the store directories (its lines 101-104) and consumes the
    extractor.  When [unidecode] is unbound this point is reached only
    with [normalize_unicode] off, and the extractor then never calls it. *)
Definition main_entry (opts : options) (mrconso mrsty : list pystr)
    (HEADERS_MRCONSO HEADERS_MRSTY : list pystr) : cmd build :=
  run! prepare_destination opts in
  run! mkdir simstring_dir in
  run! mkdir cuisty_dir in
  run! (if save_preferred_terms opts then mkdir cuipt_path else ret tt) in
  ret (main lower (default (fun s => s) unidecode) countlines opts mrconso mrsty
            HEADERS_MRCONSO HEADERS_MRSTY).

End Main.

(** ** Vocabulary of the further properties *)

(** A line binds a schema name when the truncated field assignment gives
    the name a value. *)
Definition binds (headers : list pystr) (ln key : pystr) : Prop :=
  is_Some (row_content headers ln !! key).

#[global] Instance binds_dec headers ln key : Decision (binds headers ln key).
Proof. unfold binds. apply _. Defined.

(** A line of the semantic-type table that the loader can process. *)
Definition loadable (headers : list pystr) (ln : pystr) : Prop :=
  binds headers ln k_cui ∧ binds headers ln k_sty.

#[global] Instance loadable_dec headers ln : Decision (loadable headers ln).
Proof. unfold loadable. apply _. Defined.

(** A vocabulary row from which a record can be built: the five fields
    are there and the identifier is known to the semantic-type map. *)
Definition row_complete (sem_types : gmap pystr (list pystr))
    (headers : list pystr) (ln : pystr) : Prop :=
  Forall (binds headers ln) [k_str; k_cui; k_sab; k_tty; k_ispref]
  ∧ ∃ c, row_content headers ln !! k_cui = Some c ∧ is_Some (sem_types !! c).

(** Two records that differ at most in their text. *)
Definition same_but_text (r1 r2 : term_record) : Prop :=
  cui r1 = cui r2 ∧ stys r1 = stys r2 ∧ sab r1 = sab r2
  ∧ tty r1 = tty r2 ∧ preferred r1 = preferred r2.

(** What a run that reaches the pipeline leaves in the destination: the
    flag files of the options and the directories of the stores. *)
Definition installed (opts : options) : gmap pystr node :=
  (if save_preferred_terms opts then <[cuipt_path := Folder]> else (fun m => m))
    (<[cuisty_dir := Folder]>
       (<[simstring_dir := Folder]>
          (<[language_flag := File (language opts)]>
             ((if lowercase opts
               then <[lowercase_flag := File []]> else (fun m => m))
                ((if normalize_unicode opts
                  then <[normalize_unicode_flag := File []]>
                  else (fun m => m)) ∅))))).

(** The two questions among the console lines. *)
Definition is_question (ln : console_line) : bool :=
  match ln with AskCreate | AskEmpty => true | _ => false end.

(** Fixtures for the entry point. *)
Module EntryExamples.

Definition old_entries : gmap pystr node :=
  <[py "notes.txt" := File (py "keep me")]> ∅.

Definition opts : options := Options true true Examples.ENG true.

Definition start (answer : pystr) : world :=
  World (Directory old_entries) [answer] [].

End EntryExamples.

(** * Properties *)

Example split_ex :
  split bar (py "C0001|T001||x") = [py "C0001"; py "T001"; []; py "x"].
Proof. reflexivity. Qed.

Example strip_ex : strip (32 :: 9 :: py "a b" ++ [32; 10])%N = py "a b".
Proof. reflexivity. Qed.

Example sem_ex :
  get_semantic_types [py "C1|T1"; py "C2|T2"; py "C1|T1"; py "C1|T0"] [k_cui; k_sty]
  = Ok (<[py "C1" := [py "T1"; py "T1"; py "T0"]]> (<[py "C2" := [py "T2"]]> ∅)).
Proof. vm_compute. reflexivity. Qed.

(** The end-to-end fixture of the specification. *)
Example end_to_end :
  let b := Examples.run (Options false false Examples.ENG true) in
  ss_db b = [py "Aspirin"; py "acetylsalicylic acid"]
  /\ cuisty_db b = [(py "Aspirin", py "C0001", [py "T001"], 1);
                    (py "acetylsalicylic acid", py "C0001", [py "T001"], 0)]
  /\ cuipt_db b = [(py "C0001", py "Aspirin")]
  /\ raised b = None.
Proof. vm_compute. repeat split; reflexivity. Qed.

(** ** The builder in terms of the trace it consumes *)

Section Builder.

Implicit Types (it : gen term_record) (b : build) (d : option pystr).

Lemma parse_loop_cuisty it d b :
  cuisty_db (parse_loop it d b)
  = cuisty_db b ++ List.map cuisty_entry (yields it).
Proof.
  revert b. induction it as [r rest IH | ln rest IH | | e]; intros b; simpl.
  - rewrite IH. unfold parse_step.
    destruct d; repeat case_decide; simpl; by rewrite <- app_assoc.
  - by rewrite IH.
  - by rewrite app_nil_r.
  - by rewrite app_nil_r.
Qed.

Lemma parse_loop_stdout it d b :
  stdout (parse_loop it d b) = stdout b ++ printed it.
Proof.
  revert b. induction it as [r rest IH | ln rest IH | | e]; intros b; simpl.
  - rewrite IH. unfold parse_step. destruct d; repeat case_decide; done.
  - rewrite IH. simpl. by rewrite <- app_assoc.
  - by rewrite app_nil_r.
  - by rewrite app_nil_r.
Qed.

Lemma parse_loop_raised it d b :
  raised (parse_loop it d b)
  = match outcome it with Some e => Some e | None => raised b end.
Proof.
  revert b. induction it as [r rest IH | ln rest IH | | e]; intros b; simpl;
    try done.
  - rewrite IH. unfold parse_step. destruct d; repeat case_decide; done.
  - by rewrite IH.
Qed.

Lemma parse_loop_cuipt_some it p b :
  cuipt_db (parse_loop it (Some p) b)
  = cuipt_db b ++ List.map cuipt_entry (filter qualifies (yields it)).
Proof.
  revert b. induction it as [r rest IH | ln rest IH | | e]; intros b; simpl.
  - rewrite IH, filter_cons. unfold parse_step, qualifies.
    repeat case_decide; simpl; try tauto; by rewrite <- ?app_assoc.
  - by rewrite IH.
  - by rewrite app_nil_r.
  - by rewrite app_nil_r.
Qed.

Lemma parse_loop_cuipt_none it b :
  cuipt_db (parse_loop it None b) = cuipt_db b.
Proof.
  revert b. induction it as [r rest IH | ln rest IH | | e]; intros b; simpl;
    try done.
  - rewrite IH. unfold parse_step. repeat case_decide; done.
  - by rewrite IH.
Qed.

End Builder.

(** ** First occurrences *)

Section FirstOccurrences.

Implicit Types (l : list pystr) (seen : gset pystr) (x : pystr).

Lemma omap_fmap_S {B} (f : nat → option B) (ks : list nat) :
  omap f (S <$> ks) = omap (fun k => f (S k)) ks.
Proof. induction ks as [|k ks IH]; csimpl; [done|]. by rewrite IH. Qed.

Lemma first_occurrences_after_nil seen : first_occurrences_after seen [] = [].
Proof. done. Qed.

Lemma first_occurrences_after_cons seen x l :
  first_occurrences_after seen (x :: l)
  = if decide (x ∈ seen) then first_occurrences_after seen l
    else x :: first_occurrences_after ({[x]} ∪ seen) l.
Proof.
  unfold first_occurrences_after. cbn [length seq]. csimpl.
  rewrite <- fmap_S_seq, omap_fmap_S. cbn [lookup list_lookup take].
  destruct (decide (x ∈ seen)) as [Hin|Hin].
  - rewrite decide_True by (by left).
    apply list_omap_ext, Forall_Forall2_diag, Forall_forall. intros k _.
    simpl. destruct (l !! k) as [y|]; [|done].
    repeat case_decide; try done; set_solver.
  - rewrite decide_False by set_solver. f_equal.
    apply list_omap_ext, Forall_Forall2_diag, Forall_forall. intros k _.
    simpl. destruct (l !! k) as [y|]; [|done].
    repeat case_decide; try done; set_solver.
Qed.

Lemma first_occurrences_after_empty l :
  first_occurrences_after ∅ l = first_occurrences l.
Proof.
  apply list_omap_ext, Forall_Forall2_diag, Forall_forall. intros k _.
  destruct (l !! k) as [y|]; [|done].
  repeat case_decide; try done; set_solver.
Qed.

Lemma elem_of_first_occurrences_after seen l x :
  x ∈ first_occurrences_after seen l ↔ x ∈ l ∧ x ∉ seen.
Proof.
  revert seen. induction l as [|y l IH]; intros seen.
  - rewrite first_occurrences_after_nil. set_solver.
  - rewrite first_occurrences_after_cons. case_decide.
    + rewrite IH. set_solver.
    + rewrite elem_of_cons, IH. destruct (decide (x = y)); set_solver.
Qed.

Lemma NoDup_first_occurrences_after seen l :
  NoDup (first_occurrences_after seen l).
Proof.
  revert seen. induction l as [|y l IH]; intros seen.
  - constructor.
  - rewrite first_occurrences_after_cons. case_decide; [apply IH|].
    constructor; [|apply IH].
    rewrite elem_of_first_occurrences_after. set_solver.
Qed.

Lemma parse_loop_ss_db (it : gen term_record) d b :
  simstring_terms b = list_to_set (ss_db b) →
  ss_db (parse_loop it d b)
  = ss_db b ++ first_occurrences_after (simstring_terms b)
                                       (List.map term (yields it)).
Proof.
  revert b. induction it as [r rest IH | ln rest IH | | e]; intros b Hb; simpl.
  - rewrite first_occurrences_after_cons.
    unfold parse_step.
    destruct (decide (term r ∉ simstring_terms b)) as [Hnew|Hold].
    + rewrite (decide_False (P := term r ∈ simstring_terms b)) by done.
      destruct d; repeat case_decide; rewrite IH; simpl;
        rewrite <- ?app_assoc; try done;
        rewrite Hb, list_to_set_app_L; set_solver.
    + rewrite (decide_True (P := term r ∈ simstring_terms b))
        by (by apply dec_stable).
      destruct d; repeat case_decide; by rewrite IH.
  - by rewrite IH.
  - by rewrite app_nil_r.
  - by rewrite app_nil_r.
Qed.

Lemma parse_and_encode_ngrams_ss_db (it : gen term_record) d :
  ss_db (parse_and_encode_ngrams it d)
  = first_occurrences (List.map term (yields it)).
Proof.
  unfold parse_and_encode_ngrams. rewrite parse_loop_ss_db by reflexivity.
  cbn [build_init ss_db simstring_terms app].
  apply first_occurrences_after_empty.
Qed.

End FirstOccurrences.

(** C1: whatever stream of term records the index builder consumes, the
    sequence of insertions into the similarity index is the sequence of
    the distinct surface texts of the stream in the order of their first
    occurrence: the text at position [k] is inserted exactly when it does
    not occur among the [k] texts before it.  Hence no text is inserted
    twice, and a text is inserted if and only if it occurs in the stream. *)
Theorem similarity_index_first_occurrences
    (extracted_it : gen term_record) (cuipt_dir : option pystr) :
  let texts := List.map term (yields extracted_it) in
  let b := parse_and_encode_ngrams extracted_it cuipt_dir in
  ss_db b = first_occurrences texts
  ∧ NoDup (ss_db b)
  ∧ (∀ t, t ∈ ss_db b ↔ t ∈ texts).
Proof.
  intros texts b. subst b texts.
  rewrite parse_and_encode_ngrams_ss_db, <- first_occurrences_after_empty.
  split_and!.
  - done.
  - apply NoDup_first_occurrences_after.
  - intros t. rewrite elem_of_first_occurrences_after. set_solver.
Qed.

(** A text that comes back later in the stream is inserted once, at its
    first position. *)
Example repeated_text_inserted_once :
  let r t := TermRecord (py t) (py "C0001") [py "T001"] (py "MTH") (py "PN") 0 in
  ss_db (parse_and_encode_ngrams
           (Yield (r "b"%string)
              (Yield (r "a"%string)
                 (Yield (r "b"%string) (Yield (r "c"%string) Return))))
           None)
  = [py "b"; py "a"; py "c"].
Proof. vm_compute. reflexivity. Qed.

(** ** The preferred-term store *)

Lemma CuiPreferredTermDB_contents_snoc calls call :
  CuiPreferredTermDB_contents (calls ++ [call])
  = <[call.1 := call.2]> (CuiPreferredTermDB_contents calls).
Proof. unfold CuiPreferredTermDB_contents. by rewrite fold_left_app. Qed.

Lemma CuiPreferredTermDB_contents_lookup calls c :
  CuiPreferredTermDB_contents calls !! c
  = last (List.map snd (filter (fun call => call.1 = c) calls)).
Proof.
  induction calls as [|call calls IH] using rev_ind; [done|].
  rewrite CuiPreferredTermDB_contents_snoc, lookup_insert, filter_app.
  rewrite filter_cons, filter_nil, List.map_app.
  case_decide; simplify_eq; simpl.
  - by rewrite last_snoc.
  - by rewrite app_nil_r.
Qed.

(** C3: with the preferred-term store enabled, processing a record appends
    the call [insert(cui, term)] exactly when the record has
    [preferred == 1], [sab == "MTH"] and [tty == "PN"]; over a whole
    stream the calls are those of the qualifying records, in stream order;
    and in a store where an insertion overwrites the entry of its
    identifier, the term finally held for an identifier is the text of the
    last qualifying record that carries it. *)
Theorem preferred_term_store_last_qualifying
    (extracted_it : gen term_record) (cuipt_dir : pystr) :
  let records := yields extracted_it in
  let b := parse_and_encode_ngrams extracted_it (Some cuipt_dir) in
  (∀ b0 r,
     cuipt_db (parse_step (Some cuipt_dir) b0 r)
     = if decide (preferred r = 1 ∧ sab r = py "MTH" ∧ tty r = py "PN")
       then cuipt_db b0 ++ [(cui r, term r)] else cuipt_db b0)
  ∧ cuipt_db b = List.map cuipt_entry (filter qualifies records)
  ∧ (∀ c, CuiPreferredTermDB_contents (cuipt_db b) !! c
          = last (List.map term
                    (filter (fun r => qualifies r ∧ cui r = c) records))).
Proof.
  intros records b.
  assert (Hcalls : cuipt_db b = List.map cuipt_entry (filter qualifies records)).
  { subst b. unfold parse_and_encode_ngrams. by rewrite parse_loop_cuipt_some. }
  split_and!; [|done|].
  - intros b0 r. unfold parse_step. repeat case_decide; done.
  - intros c. rewrite CuiPreferredTermDB_contents_lookup, Hcalls.
    f_equal. clear. induction (records) as [|r rs IH]; [done|].
    rewrite !filter_cons. repeat case_decide; simpl in *;
      rewrite ?filter_cons; repeat case_decide; simpl in *;
      try tauto; by rewrite ?IH.
Qed.

(** Two qualifying records for one identifier: two calls, the later text
    is the one the store holds. *)
Example later_preferred_term_wins :
  let r t p := TermRecord (py t) (py "C0001") [py "T001"] (py "MTH") (py "PN") p in
  let b := parse_and_encode_ngrams
             (Yield (r "first"%string 1)
                (Yield (r "other"%string 0) (Yield (r "last"%string 1) Return)))
             (Some cuipt_path) in
  cuipt_db b = [(py "C0001", py "first"); (py "C0001", py "last")]
  ∧ CuiPreferredTermDB_contents (cuipt_db b) !! py "C0001" = Some (py "last").
Proof. vm_compute. split; reflexivity. Qed.

(** ** The extractor in terms of the rows it reads *)

Lemma truediv_Ok a b q : truediv a b = Ok q ↔ b ≠ 0 ∧ q = Ratio a b.
Proof.
  unfold truediv. destruct (Z.eqb_spec b 0); naive_solver.
Qed.

Lemma truediv_zero a : truediv a 0 = Raise ZeroDivisionError.
Proof. done. Qed.

Lemma truediv_nonzero a b : b ≠ 0 → truediv a b = Ok (Ratio a b).
Proof. intros. by apply truediv_Ok. Qed.

Section ExtractorFacts.

Variable lower : pystr -> pystr.
Variable unidecode : pystr -> pystr.

Implicit Types (path : list pystr) (headers : list pystr) (lang : pystr)
  (opts : options) (sem_types : gmap pystr (list pystr)) (total i : Z).

#[local] Abbreviation extract_row := (extract_row lower unidecode).
#[local] Abbreviation extract_loop := (extract_loop lower unidecode).

(** The iterator yields the parsed rows whose language matches, in file
    order, up to the first row without a [lat] field. *)
Lemma get_mrconso_iterator_cons ln path headers lang :
  get_mrconso_iterator (ln :: path) headers lang
  = match row_content headers ln !! k_lat with
    | None => Throw (KeyError k_lat)
    | Some lat =>
        if decide (lat = lang)
        then Yield (row_content headers ln)
                   (get_mrconso_iterator path headers lang)
        else get_mrconso_iterator path headers lang
    end.
Proof.
  simpl. unfold getitem. destruct (row_content headers ln !! k_lat); [|done].
  repeat case_decide; done.
Qed.

Lemma get_mrconso_iterator_printed path headers lang :
  printed (get_mrconso_iterator path headers lang) = [].
Proof.
  induction path as [|ln path IH]; [done|].
  rewrite get_mrconso_iterator_cons.
  destruct (_ !! k_lat); [|done]. case_decide; done.
Qed.

(** The records yielded by the extractor come, one for one and in order,
    from an initial segment of the rows that match the language filter;
    when the generator ends normally, from all of them. *)
Lemma extract_loop_rows path headers lang opts sem_types total i :
  let g := extract_loop (get_mrconso_iterator path headers lang)
                        opts sem_types total i in
  ∃ rows,
    rows `prefix_of` filter (lat_matches headers lang) path
    ∧ Forall2 (fun ln r =>
                 extract_row opts sem_types (row_content headers ln) = Ok r)
              rows (yields g)
    ∧ (outcome g = None → rows = filter (lat_matches headers lang) path).
Proof.
  revert i. induction path as [|ln path IH]; intros i.
  - exists []. simpl. split_and!; [done| |done].
    destruct (truediv i total); constructor.
  - rewrite get_mrconso_iterator_cons, filter_cons.
    destruct (row_content headers ln !! k_lat) as [lat|] eqn:Hlat.
    2:{ exists []. simpl.
        split_and!; [apply prefix_nil|constructor|done]. }
    destruct (decide (lat = lang)) as [->|Hne].
    2:{ rewrite decide_False by (unfold lat_matches; congruence). apply IH. }
    rewrite decide_True by done. cbn [extract_loop].
    destruct (IH (i + 1)) as (rows & Hpre & Hrec & Hall).
    destruct (extract_row opts sem_types (row_content headers ln))
      as [r|e] eqn:Hrow.
    + destruct ((i + 1) mod 100000 =? 0); [destruct (truediv (i + 1) total)|];
        simpl.
      1,3: exists (ln :: rows);
        (split_and!; [by apply prefix_cons|by constructor|]);
        intros ?; f_equal; auto.
      exists []. split_and!; [apply prefix_nil|constructor|done].
    + exists [].
      destruct ((i + 1) mod 100000 =? 0); [destruct (truediv (i + 1) total)|];
        simpl; (split_and!; [apply prefix_nil|constructor|done]).
Qed.

End ExtractorFacts.

(** ** The semantic-type map *)

Lemma table_stys_cons headers ln mrsty c :
  table_stys headers (ln :: mrsty) c
  = (if decide (row_content headers ln !! k_cui = Some c)
     then option_list (row_content headers ln !! k_sty) else [])
    ++ table_stys headers mrsty c.
Proof.
  unfold table_stys. csimpl. case_decide; [|done].
  by destruct (row_content headers ln !! k_sty).
Qed.

Lemma get_semantic_types_step_Ok headers sem_types ln sem_types' :
  get_semantic_types_step headers sem_types ln = Ok sem_types'
  ↔ ∃ c s, row_content headers ln !! k_cui = Some c
         ∧ row_content headers ln !! k_sty = Some s
         ∧ sem_types' = <[c := default [] (sem_types !! c) ++ [s]]> sem_types.
Proof.
  unfold get_semantic_types_step, getitem.
  destruct (row_content headers ln !! k_cui) as [c|]; simpl; [|naive_solver].
  destruct (row_content headers ln !! k_sty) as [s|]; simpl; naive_solver.
Qed.

Lemma get_semantic_types_loop_lookup headers mrsty sem_types sem_types' c :
  get_semantic_types_loop headers mrsty sem_types = Ok sem_types' →
  default [] (sem_types' !! c)
  = default [] (sem_types !! c) ++ table_stys headers mrsty c
  ∧ (is_Some (sem_types' !! c)
     → is_Some (sem_types !! c) ∨ table_stys headers mrsty c ≠ []).
Proof.
  revert sem_types. induction mrsty as [|ln mrsty IH]; intros sem_types;
    cbn [get_semantic_types_loop].
  - intros [= <-]. rewrite app_nil_r. auto.
  - destruct (get_semantic_types_step headers sem_types ln) as [sem1|e] eqn:Hstep;
      [|done]. cbn [bind]. intros Hloop.
    apply get_semantic_types_step_Ok in Hstep as (c0 & s0 & Hc & Hs & ->).
    destruct (IH _ Hloop) as [Hval Hdom]. rewrite Hval, table_stys_cons, Hc, Hs.
    destruct (decide (c0 = c)) as [->|Hne].
    + rewrite decide_True by done. rewrite lookup_insert_eq. simpl.
      rewrite <- app_assoc. split; [done|]. intros _. right.
      by destruct (table_stys headers mrsty c).
    + rewrite decide_False by congruence.
      rewrite lookup_insert_ne in Hdom |- * by done. done.
Qed.

(** The loaded map holds, for every identifier it knows, the [sty] values
    of that identifier's lines in file order, repetitions included. *)
Lemma get_semantic_types_lookup headers mrsty sem_types c l :
  get_semantic_types mrsty headers = Ok sem_types →
  sem_types !! c = Some l → l = table_stys headers mrsty c.
Proof.
  intros Hload Hc.
  destruct (get_semantic_types_loop_lookup _ _ _ _ c Hload) as [Hval _].
  by rewrite Hc, lookup_empty in Hval.
Qed.

(** ** One row *)

Lemma extract_row_Ok lower unidecode opts sem_types content r :
  extract_row lower unidecode opts sem_types content = Ok r
  ↔ ∃ s ispref,
      content !! k_str = Some s
      ∧ content !! k_cui = Some (cui r)
      ∧ content !! k_sab = Some (sab r)
      ∧ content !! k_tty = Some (tty r)
      ∧ content !! k_ispref = Some ispref
      ∧ preferred r = (if decide (ispref = py "Y") then 1 else 0)
      ∧ term r = transformed lower unidecode opts (strip s)
      ∧ sem_types !! cui r = Some (stys r).
Proof.
  unfold extract_row, getitem, transformed.
  destruct (content !! k_str) as [s|]; simpl; [|naive_solver].
  destruct (content !! k_cui) as [c|]; simpl; [|naive_solver].
  destruct (content !! k_sab) as [sa|]; simpl; [|naive_solver].
  destruct (content !! k_tty) as [tt|]; simpl; [|naive_solver].
  destruct (content !! k_ispref) as [ip|]; simpl; [|naive_solver].
  destruct (sem_types !! c) as [st|] eqn:Hst; simpl.
  - split.
    + intros [= <-]. simpl. exists s, ip. by rewrite Hst.
    + intros (s' & ip' & ? & ? & ? & ? & ? & Hp & Ht & Hs).
      destruct r; simpl in *. by simplify_eq.
  - split; [done|]. intros (s' & ip' & ? & ? & ? & ? & ? & Hp & Ht & Hs).
    simplify_eq; congruence.
Qed.

(** ** The whole pipeline in terms of the rows *)

Section Pipeline.

Variable lower : pystr -> pystr.
Variable unidecode : pystr -> pystr.
Variable countlines : list pystr -> Z.

#[local] Abbreviation main' := (main lower unidecode countlines).

(** The records that reach the builder, when the semantic-type table
    loaded. *)
Lemma main_records opts mrconso mrsty H1 H2 :
  let b := main' opts mrconso mrsty H1 H2 in
  ∃ records,
    ss_db b = first_occurrences (List.map term records)
    ∧ cuisty_db b = List.map cuisty_entry records
    ∧ cuipt_db b = (if save_preferred_terms opts
                    then List.map cuipt_entry (filter qualifies records)
                    else [])
    ∧ ∃ rows,
        rows `prefix_of` filter (lat_matches H1 (language opts)) mrconso
        ∧ Forall2 (fun ln r =>
                     ∃ sem_types,
                       get_semantic_types mrsty H2 = Ok sem_types
                       ∧ extract_row lower unidecode opts sem_types
                                     (row_content H1 ln) = Ok r)
                  rows records
        ∧ (raised b = None
           → rows = filter (lat_matches H1 (language opts)) mrconso).
Proof.
  intros b. subst b. unfold main.
  set (it := extract_from_mrconso _ _ _ _ _ _ _ _).
  exists (yields it). split_and!.
  - apply parse_and_encode_ngrams_ss_db.
  - unfold parse_and_encode_ngrams. by rewrite parse_loop_cuisty.
  - unfold parse_and_encode_ngrams. destruct (save_preferred_terms opts).
    + by rewrite parse_loop_cuipt_some.
    + by rewrite parse_loop_cuipt_none.
  - unfold parse_and_encode_ngrams. rewrite parse_loop_raised.
    subst it. unfold extract_from_mrconso.
    destruct (get_semantic_types mrsty H2) as [sem_types|e] eqn:Hload.
    + cbn [yields outcome].
      destruct (extract_loop_rows lower unidecode mrconso H1 (language opts)
                  opts sem_types (countlines mrconso) 0)
        as (rows & Hpre & Hrec & Hall).
      exists rows. split_and!; [done| |].
      * eapply Forall2_impl; [exact Hrec|]. naive_solver.
      * intros Hnone. apply Hall. by destruct (outcome _).
    + exists []. cbn. split_and!; [apply prefix_nil|constructor|done].
Qed.

End Pipeline.

(** C4: every entry written to the semantic-type store carries, as its
    semantic-type sequence, exactly the [sty] values that the lines of the
    semantic-type table give for the entry's concept identifier, in file
    order and with repeated codes kept. *)
Theorem semantic_type_store_matches_table
    (lower unidecode : pystr -> pystr) (countlines : list pystr -> Z)
    (opts : options) (mrconso mrsty : list pystr)
    (HEADERS_MRCONSO HEADERS_MRSTY : list pystr) :
  Forall (fun entry =>
            let '(_, c, semantic_types, _) := entry in
            semantic_types = table_stys HEADERS_MRSTY mrsty c)
         (cuisty_db (main lower unidecode countlines opts mrconso mrsty
                          HEADERS_MRCONSO HEADERS_MRSTY)).
Proof.
  destruct (main_records lower unidecode countlines opts mrconso mrsty
              HEADERS_MRCONSO HEADERS_MRSTY)
    as (records & _ & -> & _ & rows & _ & Hrec & _).
  apply Forall_fmap, Forall_forall. intros r Hr. simpl.
  apply (Forall2_Forall_r _ (fun r => ∃ sem_types,
           get_semantic_types mrsty HEADERS_MRSTY = Ok sem_types
           ∧ sem_types !! cui r = Some (stys r))) in Hrec.
  - rewrite Forall_forall in Hrec. destruct (Hrec r Hr) as (sem & Hload & Hc).
    eapply get_semantic_types_lookup; eauto.
  - apply Forall_forall. intros ln _ r' (sem & Hload & Hrow).
    apply extract_row_Ok in Hrow. naive_solver.
Qed.

(** ** The language filter *)

Lemma get_mrconso_iterator_skip_differing path headers lang :
  get_mrconso_iterator
    (filter (fun ln => ¬ lat_differs headers lang ln) path) headers lang
  = get_mrconso_iterator path headers lang.
Proof.
  induction path as [|ln path IH]; [done|].
  rewrite filter_cons, (get_mrconso_iterator_cons ln path).
  destruct (row_content headers ln !! k_lat) as [lat|] eqn:Hlat.
  - destruct (decide (lat = lang)) as [->|Hne].
    + rewrite decide_True by (unfold lat_differs; rewrite Hlat; auto).
      rewrite get_mrconso_iterator_cons, Hlat, decide_True by done.
      by rewrite IH.
    + rewrite decide_False by (unfold lat_differs; rewrite Hlat; auto). done.
  - rewrite decide_True by (unfold lat_differs; rewrite Hlat; auto).
    by rewrite get_mrconso_iterator_cons, Hlat.
Qed.

(** C6: the vocabulary iterator behaves as if the rows that carry another
    language code were not in the file, and the term records that reach
    the builder correspond one for one, in order, to rows of the file
    whose language field equals the configured code; the content of the
    three stores is a function of these records alone. *)
Theorem language_filter_only_matching_rows
    (lower unidecode : pystr -> pystr) (countlines : list pystr -> Z)
    (opts : options) (mrconso mrsty : list pystr)
    (HEADERS_MRCONSO HEADERS_MRSTY : list pystr) :
  let b := main lower unidecode countlines opts mrconso mrsty
                HEADERS_MRCONSO HEADERS_MRSTY in
  let lang := language opts in
  get_mrconso_iterator
    (filter (fun ln => ¬ lat_differs HEADERS_MRCONSO lang ln) mrconso)
    HEADERS_MRCONSO lang
  = get_mrconso_iterator mrconso HEADERS_MRCONSO lang
  ∧ ∃ rows records,
      rows `prefix_of` filter (lat_matches HEADERS_MRCONSO lang) mrconso
      ∧ Forall (fun ln => ln ∈ mrconso
                          ∧ row_content HEADERS_MRCONSO ln !! k_lat = Some lang)
               rows
      ∧ Forall2 (fun ln r =>
                   ∃ sem_types,
                     get_semantic_types mrsty HEADERS_MRSTY = Ok sem_types
                     ∧ extract_row lower unidecode opts sem_types
                                   (row_content HEADERS_MRCONSO ln) = Ok r)
                rows records
      ∧ ss_db b = first_occurrences (List.map term records)
      ∧ cuisty_db b = List.map cuisty_entry records
      ∧ cuipt_db b = (if save_preferred_terms opts
                      then List.map cuipt_entry (filter qualifies records)
                      else []).
Proof.
  intros b lang. split; [apply get_mrconso_iterator_skip_differing|].
  destruct (main_records lower unidecode countlines opts mrconso mrsty
              HEADERS_MRCONSO HEADERS_MRSTY)
    as (records & Hss & Hsty & Hpt & rows & Hpre & Hrec & _).
  exists rows, records. split_and!; try done.
  apply Forall_forall. intros ln Hln.
  eapply elem_of_prefix in Hln; [|exact Hpre].
  apply list_elem_of_filter in Hln as [Hm Hin]. done.
Qed.

(** ** A row whose identifier is unknown *)

Lemma extract_row_unknown_cui lower unidecode opts sem_types content c :
  content !! k_cui = Some c → sem_types !! c = None →
  ∃ e, extract_row lower unidecode opts sem_types content = Raise e
       ∧ (is_Some (content !! k_str) → is_Some (content !! k_sab)
          → is_Some (content !! k_tty) → is_Some (content !! k_ispref)
          → e = KeyError c).
Proof.
  intros Hc Hsem. unfold extract_row, getitem. rewrite Hc.
  destruct (content !! k_str); simpl; [|eexists; split; [done|by intros []]].
  destruct (content !! k_sab); simpl;
    [|eexists; split; [done|by intros _ []]].
  destruct (content !! k_tty); simpl;
    [|eexists; split; [done|by intros _ _ []]].
  destruct (content !! k_ispref); simpl;
    [|eexists; split; [done|by intros _ _ _ []]].
  rewrite Hsem. simpl. eauto.
Qed.

(** The stores are a function of the records that the builder receives. *)
Lemma parse_stores_yields (it1 it2 : gen term_record) (d : option pystr) :
  yields it1 = yields it2 →
  ss_db (parse_and_encode_ngrams it1 d) = ss_db (parse_and_encode_ngrams it2 d)
  ∧ cuisty_db (parse_and_encode_ngrams it1 d)
    = cuisty_db (parse_and_encode_ngrams it2 d)
  ∧ cuipt_db (parse_and_encode_ngrams it1 d)
    = cuipt_db (parse_and_encode_ngrams it2 d).
Proof.
  intros Hy. unfold parse_and_encode_ngrams.
  rewrite !parse_loop_ss_db by reflexivity. rewrite !parse_loop_cuisty, Hy.
  split_and!; try done.
  destruct d; by rewrite ?parse_loop_cuipt_some, ?parse_loop_cuipt_none, ?Hy.
Qed.

Section Abort.

Variable lower : pystr -> pystr.
Variable unidecode : pystr -> pystr.

#[local] Abbreviation xloop := (extract_loop lower unidecode).

(** When the extractor meets a matching row for which no record can be
    built, it stops there: it has yielded what the rows before it yield,
    and it ends with an exception. *)
Lemma extract_loop_abort pre row post headers lang opts sem_types total i e :
  lat_matches headers lang row →
  extract_row lower unidecode opts sem_types (row_content headers row) = Raise e →
  let full := xloop (get_mrconso_iterator (pre ++ row :: post) headers lang)
                    opts sem_types total i in
  let before := xloop (get_mrconso_iterator pre headers lang)
                      opts sem_types total i in
  yields full = yields before
  ∧ is_Some (outcome full)
  ∧ (outcome before = None → outcome full = Some e).
Proof.
  intros Hlat Hrow. revert i.
  induction pre as [|ln pre IH]; intros i; cbn zeta.
  - rewrite app_nil_l, get_mrconso_iterator_cons, Hlat, decide_True by done.
    cbn [get_mrconso_iterator extract_loop]. rewrite Hrow.
    destruct (Z.eqb_spec total 0) as [->|Hnz].
    + rewrite !truediv_zero. destruct (_ =? 0); simpl; split_and!; eauto; done.
    + rewrite !truediv_nonzero by done.
      destruct (_ =? 0); simpl; split_and!; eauto.
  - rewrite <- app_comm_cons, !(get_mrconso_iterator_cons ln).
    destruct (row_content headers ln !! k_lat) as [lat|];
      [|simpl; split_and!; eauto; done].
    case_decide; [|apply IH]. cbn [extract_loop].
    specialize (IH (i + 1)). cbn zeta in IH. destruct IH as (Hy & Hsome & He).
    destruct (extract_row _ _ _ _ (row_content headers ln)) as [r|e'];
      (destruct (_ =? 0); [destruct (truediv (i + 1) total)|]); simpl;
      rewrite ?Hy; split_and!; eauto; done.
Qed.

End Abort.

(** C2: let a vocabulary row pass the language filter and name a concept
    identifier that the semantic-type map does not hold.  Then the run
    ends with an exception, and each of the three stores has received
    exactly the insertions of the run over the rows that precede this row
    (taken with the same line total), hence nothing from this row and
    nothing from any later row.  If those preceding rows cause no error
    and the row has its other fields, the exception is the [KeyError] of
    the unknown identifier. *)
Theorem unknown_identifier_aborts_at_row
    (lower unidecode : pystr -> pystr) (countlines : list pystr -> Z)
    (opts : options) (pre post : list pystr) (row : pystr)
    (mrsty : list pystr) (HEADERS_MRCONSO HEADERS_MRSTY : list pystr)
    (sem_types : gmap pystr (list pystr)) (c : pystr) :
  get_semantic_types mrsty HEADERS_MRSTY = Ok sem_types →
  row_content HEADERS_MRCONSO row !! k_lat = Some (language opts) →
  row_content HEADERS_MRCONSO row !! k_cui = Some c →
  sem_types !! c = None →
  let mrconso := pre ++ row :: post in
  let b := main lower unidecode countlines opts mrconso mrsty
                HEADERS_MRCONSO HEADERS_MRSTY in
  let before := main lower unidecode (fun _ => countlines mrconso) opts pre mrsty
                     HEADERS_MRCONSO HEADERS_MRSTY in
  is_Some (raised b)
  ∧ ss_db b = ss_db before
  ∧ cuisty_db b = cuisty_db before
  ∧ cuipt_db b = cuipt_db before
  ∧ (raised before = None →
     is_Some (row_content HEADERS_MRCONSO row !! k_str) →
     is_Some (row_content HEADERS_MRCONSO row !! k_sab) →
     is_Some (row_content HEADERS_MRCONSO row !! k_tty) →
     is_Some (row_content HEADERS_MRCONSO row !! k_ispref) →
     raised b = Some (KeyError c)).
Proof.
  intros Hload Hlat Hc Hsem mrconso b before. subst mrconso.
  destruct (extract_row_unknown_cui lower unidecode opts sem_types _ c Hc Hsem)
    as (e & Hrow & He).
  destruct (extract_loop_abort lower unidecode pre row post HEADERS_MRCONSO
              (language opts) opts sem_types
              (countlines (pre ++ row :: post)) 0 e Hlat Hrow)
    as (Hy & Hsome & Hout).
  subst b before. unfold main, extract_from_mrconso. rewrite Hload.
  set (full := extract_loop _ _ (get_mrconso_iterator (pre ++ _) _ _) _ _ _ _)
    in *.
  set (bef := extract_loop _ _ (get_mrconso_iterator pre _ _) _ _ _ _) in *.
  set (d := if save_preferred_terms opts then _ else _).
  destruct (parse_stores_yields
              (Print LoadingLine (Print DoneLine full))
              (Print LoadingLine (Print DoneLine bef)) d) as (Hss & Hsty & Hpt);
    [exact Hy|].
  split_and!; try done.
  - unfold parse_and_encode_ngrams. rewrite parse_loop_raised. cbn [outcome].
    destruct Hsome as [e' ->]. eauto.
  - unfold parse_and_encode_ngrams. rewrite !parse_loop_raised. cbn [outcome].
    intros Hbef Hs1 Hs2 Hs3 Hs4. rewrite Hout.
    + f_equal. by apply He.
    + by destruct (outcome bef).
Qed.

(** The hypotheses hold on a three-row file whose second row names the
    unknown identifier C0009. *)
Lemma unknown_identifier_aborts_at_row_witness :
  let pre := [py "C0001|ENG|Y|MTH|PN|Aspirin"] in
  let post := [py "C0001|ENG|N|SNOMED|SY|acetylsalicylic acid"] in
  let opts := Options false false Examples.ENG true in
  let mrconso := pre ++ Examples.unknown_row :: post in
  let b := main Examples.latin_lower Examples.latin_unidecode
                Examples.countlines_spec opts mrconso Examples.mrsty
                Examples.mrconso_header Examples.mrsty_header in
  let before := main Examples.latin_lower Examples.latin_unidecode
                     (fun _ => Examples.countlines_spec mrconso) opts pre
                     Examples.mrsty
                     Examples.mrconso_header Examples.mrsty_header in
  is_Some (raised b)
  ∧ ss_db b = ss_db before
  ∧ cuisty_db b = cuisty_db before
  ∧ cuipt_db b = cuipt_db before
  ∧ (raised before = None →
     is_Some (row_content Examples.mrconso_header Examples.unknown_row !! k_str) →
     is_Some (row_content Examples.mrconso_header Examples.unknown_row !! k_sab) →
     is_Some (row_content Examples.mrconso_header Examples.unknown_row !! k_tty) →
     is_Some (row_content Examples.mrconso_header Examples.unknown_row !! k_ispref) →
     raised b = Some (KeyError (py "C0009"))).
Proof.
  apply (unknown_identifier_aborts_at_row
           Examples.latin_lower Examples.latin_unidecode Examples.countlines_spec
           (Options false false Examples.ENG true)
           [py "C0001|ENG|Y|MTH|PN|Aspirin"]
           [py "C0001|ENG|N|SNOMED|SY|acetylsalicylic acid"]
           Examples.unknown_row Examples.mrsty
           Examples.mrconso_header Examples.mrsty_header
           Examples.sem_types (py "C0009")).
  - vm_compute. reflexivity.
  - vm_compute. reflexivity.
  - vm_compute. reflexivity.
  - vm_compute. reflexivity.
Defined.

(** What that run leaves behind. *)
Example unknown_identifier_run :
  let b := main Examples.latin_lower Examples.latin_unidecode
                Examples.countlines_spec (Options false false Examples.ENG true)
                [py "C0001|ENG|Y|MTH|PN|Aspirin"; Examples.unknown_row;
                 py "C0001|ENG|N|SNOMED|SY|acetylsalicylic acid"]
                Examples.mrsty Examples.mrconso_header Examples.mrsty_header in
  raised b = Some (KeyError (py "C0009"))
  ∧ ss_db b = [py "Aspirin"]
  ∧ cuisty_db b = [(py "Aspirin", py "C0001", [py "T001"], 1)]
  ∧ cuipt_db b = [(py "C0001", py "Aspirin")].
Proof. vm_compute. repeat split; reflexivity. Qed.

(** ** Progress and summary lines *)

Lemma multiples_upto (n : nat) :
  length (filter (fun j => j mod 100000 = 0) (seqZ 1 (Z.of_nat n)))
  = Z.to_nat (Z.of_nat n / 100000).
Proof.
  induction n as [|n IH]; [done|].
  rewrite seqZ_S, filter_app, length_app, IH, filter_cons, filter_nil.
  case_decide; cbn [length]; Z.to_euclidean_division_equations; lia.
Qed.

Section Progress.

Variable lower : pystr -> pystr.
Variable unidecode : pystr -> pystr.

#[local] Abbreviation ploop := (extract_loop lower unidecode).

(** What a loop that ends normally has printed: a status line for each
    multiple of 100000 reached by the counter of rows received from the
    iterator, then the summary line. *)
Lemma extract_loop_printed path headers lang opts sem_types total i :
  let g := ploop (get_mrconso_iterator path headers lang) opts sem_types total i in
  let n := Z.of_nat (length (filter (lat_matches headers lang) path)) in
  outcome g = None →
  filter is_status (printed g)
  = (fun j => StatusLine j (Ratio j total))
      <$> filter (fun j => j mod 100000 = 0) (seqZ (i + 1) n)
  ∧ filter is_completed (printed g)
    = [CompletedLine (i + n) (Ratio (i + n) total)].
Proof.
  revert i. induction path as [|ln path IH]; intros i; cbn zeta.
  - cbn [get_mrconso_iterator extract_loop].
    destruct (truediv i total) as [q|] eqn:Hq; [|done]. intros _.
    apply truediv_Ok in Hq as [_ ->]. cbn. by rewrite Z.add_0_r.
  - rewrite get_mrconso_iterator_cons, filter_cons.
    destruct (row_content headers ln !! k_lat) as [lat|] eqn:Hlat; [|done].
    destruct (decide (lat = lang)) as [->|Hne].
    2:{ rewrite decide_False by (unfold lat_matches; congruence). apply IH. }
    rewrite decide_True by done. cbn [extract_loop length].
    specialize (IH (i + 1)). cbn zeta in IH.
    rewrite Nat2Z.inj_succ, seqZ_cons by lia.
    replace (Z.pred (Z.succ (Z.of_nat (length (filter (lat_matches headers lang) path)))))
      with (Z.of_nat (length (filter (lat_matches headers lang) path))) by lia.
    replace (Z.succ (i + 1)) with (i + 1 + 1) by lia.
    replace (i + Z.succ (Z.of_nat (length (filter (lat_matches headers lang) path))))
      with (i + 1 + Z.of_nat (length (filter (lat_matches headers lang) path)))
      by lia.
    rewrite filter_cons.
    destruct (extract_row _ _ _ _ (row_content headers ln)) as [r|e'];
      destruct (Z.eqb_spec ((i + 1) mod 100000) 0) as [Hm|Hm];
      [ rewrite decide_True by done | rewrite decide_False by done
      | rewrite decide_True by done | rewrite decide_False by done ];
      try destruct (truediv (i + 1) total) as [q|] eqn:Hq; try done;
      try (apply truediv_Ok in Hq as [_ ->]); cbn [outcome printed];
      intros Hout; destruct (IH Hout) as [IH1 IH2];
      rewrite ?(filter_cons _ (StatusLine _ _)); cbn [is_status is_completed];
      rewrite ?(decide_True (P := Is_true true)) by done;
      rewrite ?(decide_False (P := Is_true false)) by (by intros []);
      rewrite IH1, IH2; done.
Qed.

Lemma status_lines_S total i (k : nat) :
  status_lines total (i + 1) (Z.of_nat (S k))
  = (if decide ((i + 1) mod 100000 = 0)
     then [StatusLine (i + 1) (Ratio (i + 1) total)] else [])
    ++ status_lines total (i + 1 + 1) (Z.of_nat k).
Proof.
  unfold status_lines. rewrite Nat2Z.inj_succ, seqZ_cons by lia.
  replace (Z.pred (Z.succ (Z.of_nat k))) with (Z.of_nat k) by lia.
  replace (Z.succ (i + 1)) with (i + 1 + 1) by lia.
  rewrite filter_cons. by case_decide.
Qed.

(** In any run of the loop, ended normally or not: the status lines are
    those of the first [k] rows received from the iterator, where [k] is
    the number of records yielded, or one more when the loop ended while
    it was processing a further row. *)
Lemma extract_loop_status_received path headers lang opts sem_types total i :
  let g := ploop (get_mrconso_iterator path headers lang) opts sem_types total i in
  ∃ k : nat,
    (length (yields g) ≤ k ≤ length (yields g) + 1)%nat
    ∧ filter is_status (printed g) = status_lines total (i + 1) (Z.of_nat k).
Proof.
  revert i. induction path as [|ln path IH]; intros i; cbn zeta.
  - exists 0%nat. cbn [get_mrconso_iterator extract_loop].
    destruct (truediv i total); cbn; split; (lia || done).
  - rewrite get_mrconso_iterator_cons.
    destruct (row_content headers ln !! k_lat) as [lat|];
      [|no_rows].
    destruct (decide (lat = lang)) as [->|Hne]; [|apply IH].
    cbn [extract_loop].
    destruct (IH (i + 1)) as (k & Hk & Hst). cbn zeta in Hk, Hst.
    destruct (extract_row _ _ _ _ (row_content headers ln)) as [r|e'];
      (destruct (Z.eqb_spec ((i + 1) mod 100000) 0) as [Hm|Hm];
       [destruct (truediv (i + 1) total) as [q|] eqn:Hq;
        [apply truediv_Ok in Hq as [_ ->]|] |]).
    + exists (S k). cbn [yields printed length].
      rewrite status_lines_S, decide_True, filter_cons, Hst by done.
      split; [lia|done].
    + no_rows.
    + exists (S k). cbn [yields printed length].
      rewrite status_lines_S, decide_False, Hst by done.
      split; [lia|done].
    + exists 1%nat. cbn [yields printed length].
      rewrite status_lines_S, decide_True by done.
      split; [lia|done].
    + no_rows.
    + no_rows.
Qed.

End Progress.

(** C9 on the code: on an empty vocabulary file, whose line count is 0,
    the semantic-type table having loaded, the summary computation divides
    by that count and raises [ZeroDivisionError]; the run ends with this
    exception and no summary line is printed. *)
Theorem summary_divides_by_zero_on_empty_file
    (lower unidecode : pystr -> pystr) (countlines : list pystr -> Z)
    (opts : options) (mrsty : list pystr)
    (HEADERS_MRCONSO HEADERS_MRSTY : list pystr)
    (sem_types : gmap pystr (list pystr)) :
  countlines [] = 0 →
  get_semantic_types mrsty HEADERS_MRSTY = Ok sem_types →
  let b := main lower unidecode countlines opts [] mrsty
                HEADERS_MRCONSO HEADERS_MRSTY in
  raised b = Some ZeroDivisionError
  ∧ stdout b = [LoadingLine; DoneLine]
  ∧ filter is_completed (stdout b) = [].
Proof.
  intros Hzero Hload b. subst b.
  unfold main, extract_from_mrconso, parse_and_encode_ngrams.
  rewrite Hload, Hzero. cbn. done.
Qed.

(** The fixture tables with an empty vocabulary file. *)
Lemma summary_divides_by_zero_on_empty_file_witness :
  let b := main Examples.latin_lower Examples.latin_unidecode
                Examples.countlines_spec
                (Options false false Examples.ENG false)
                [] Examples.mrsty
                Examples.mrconso_header Examples.mrsty_header in
  raised b = Some ZeroDivisionError
  ∧ stdout b = [LoadingLine; DoneLine]
  ∧ filter is_completed (stdout b) = [].
Proof.
  apply (summary_divides_by_zero_on_empty_file
           Examples.latin_lower Examples.latin_unidecode Examples.countlines_spec
           (Options false false Examples.ENG false) Examples.mrsty
           Examples.mrconso_header Examples.mrsty_header Examples.sem_types).
  - reflexivity.
  - vm_compute. reflexivity.
Defined.

Lemma filter_lat_matches_replicate n row headers lang :
  lat_matches headers lang row →
  filter (lat_matches headers lang) (replicate n row) = replicate n row.
Proof.
  intros Hm. induction n as [|n IH]; [done|].
  cbn [replicate]. by rewrite filter_cons, decide_True, IH.
Qed.

Lemma extract_loop_replicate_outcome lower unidecode n row headers lang opts
    sem_types total i r :
  lat_matches headers lang row →
  extract_row lower unidecode opts sem_types (row_content headers row) = Ok r →
  total ≠ 0 →
  outcome (extract_loop lower unidecode
             (get_mrconso_iterator (replicate n row) headers lang)
             opts sem_types total i) = None.
Proof.
  intros Hm Hrow Hnz. revert i. induction n as [|n IH]; intros i.
  - cbn. by rewrite truediv_nonzero.
  - cbn [replicate]. rewrite get_mrconso_iterator_cons, Hm, decide_True by done.
    cbn [extract_loop]. rewrite Hrow, truediv_nonzero by done.
    destruct (_ =? 0); cbn [outcome]; apply IH.
Qed.

Lemma filter_none {A} (P : A → Prop) `{∀ x, Decision (P x)} (l : list A) :
  Forall (fun x => ¬ P x) l → filter P l = [].
Proof.
  induction 1 as [|x l Hx _ IH]; [done|]. by rewrite filter_cons, decide_False.
Qed.

Lemma multiples_in_first_100000 :
  filter (fun j => j mod 100000 = 0) (seqZ 1 100000) = [100000].
Proof.
  rewrite (seqZ_app 1 99999 1 ltac:(lia) ltac:(lia) : seqZ 1 100000 = _).
  rewrite filter_app.
  rewrite filter_none.
  - reflexivity.
  - apply Forall_seqZ. intros j Hj. rewrite Z.mod_small by lia. lia.
Qed.

(** The status lines of a run that ends normally. *)
Lemma main_status_lines lower unidecode countlines opts mrconso mrsty H1 H2 :
  let b := main lower unidecode countlines opts mrconso mrsty H1 H2 in
  let n := Z.of_nat (length (filter (lat_matches H1 (language opts)) mrconso)) in
  raised b = None →
  filter is_status (stdout b)
  = (fun j => StatusLine j (Ratio j (countlines mrconso)))
      <$> filter (fun j => j mod 100000 = 0) (seqZ 1 n).
Proof.
  intros b n. subst b n.
  unfold main, parse_and_encode_ngrams.
  rewrite parse_loop_raised, parse_loop_stdout. unfold extract_from_mrconso.
  destruct (get_semantic_types mrsty H2) as [sem_types|e]; [|done].
  cbn [outcome printed build_init stdout raised app]. intros Hout.
  rewrite !filter_cons. cbn [is_status].
  drop_other_lines.
  eapply (extract_loop_printed lower unidecode mrconso H1
            (language opts) opts sem_types (countlines mrconso) 0).
  by destruct (outcome _).
Qed.

(** The status lines of any run, in terms of the number of records that
    reached the semantic-type store. *)
Lemma main_status_received lower unidecode countlines opts mrconso mrsty H1 H2 :
  let b := main lower unidecode countlines opts mrconso mrsty H1 H2 in
  ∃ k : nat,
    (length (cuisty_db b) ≤ k ≤ length (cuisty_db b) + 1)%nat
    ∧ filter is_status (stdout b)
      = status_lines (countlines mrconso) 1 (Z.of_nat k).
Proof.
  intros b. subst b. unfold main, parse_and_encode_ngrams.
  rewrite parse_loop_cuisty, parse_loop_stdout. unfold extract_from_mrconso.
  cbn [build_init cuisty_db stdout app].
  destruct (get_semantic_types mrsty H2) as [sem_types|e].
  - cbn [yields printed]. rewrite !filter_cons. cbn [is_status].
    drop_other_lines.
    rewrite length_map.
    apply (extract_loop_status_received lower unidecode mrconso H1 (language opts)
             opts sem_types (countlines mrconso) 0).
  - no_rows.
Qed.

(** A file made of one well-formed matching row, repeated, is processed
    to its end. *)
Lemma main_replicate_raised lower unidecode countlines opts n row mrsty H1 H2
    sem_types r :
  get_semantic_types mrsty H2 = Ok sem_types →
  lat_matches H1 (language opts) row →
  extract_row lower unidecode opts sem_types (row_content H1 row) = Ok r →
  countlines (replicate n row) ≠ 0 →
  raised (main lower unidecode countlines opts (replicate n row) mrsty H1 H2)
  = None.
Proof.
  intros Hload Hm Hrow Hnz. unfold main, parse_and_encode_ngrams.
  rewrite parse_loop_raised. unfold extract_from_mrconso. rewrite Hload.
  cbn [outcome build_init raised].
  by rewrite (extract_loop_replicate_outcome _ _ _ _ _ _ _ _ _ _ r).
Qed.

(** C7, as the code has it: the row counter of the extractor counts the
    rows received from the vocabulary iterator, that is the rows that
    passed the language filter.  In every run the status lines printed are
    those for the multiples of 100000 among the counts 1..[k], where [k] is
    the number of records processed, or one more when the run ended while
    a further row was being processed; the line for count [j] carries the
    fraction of [j] over the line count of the file.  In a run that ends
    normally [k] is the number of rows that pass the filter, so the number
    of status lines is that number divided by 100000, rounded down. *)
Theorem status_line_every_100000_matching_rows
    (lower unidecode : pystr -> pystr) (countlines : list pystr -> Z)
    (opts : options) (mrconso mrsty : list pystr)
    (HEADERS_MRCONSO HEADERS_MRSTY : list pystr) :
  let b := main lower unidecode countlines opts mrconso mrsty
                HEADERS_MRCONSO HEADERS_MRSTY in
  let n := Z.of_nat (length (filter (lat_matches HEADERS_MRCONSO (language opts))
                                    mrconso)) in
  (∃ k : nat,
     (length (cuisty_db b) ≤ k ≤ length (cuisty_db b) + 1)%nat
     ∧ filter is_status (stdout b)
       = (fun j => StatusLine j (Ratio j (countlines mrconso)))
           <$> filter (fun j => j mod 100000 = 0) (seqZ 1 (Z.of_nat k)))
  ∧ (raised b = None →
     filter is_status (stdout b)
     = (fun j => StatusLine j (Ratio j (countlines mrconso)))
         <$> filter (fun j => j mod 100000 = 0) (seqZ 1 n)
     ∧ length (filter is_status (stdout b)) = Z.to_nat (n / 100000)).
Proof.
  intros b n. split.
  - apply main_status_received.
  - intros Hnone.
    pose proof (main_status_lines lower unidecode countlines opts mrconso mrsty
                  HEADERS_MRCONSO HEADERS_MRSTY Hnone) as Hlines.
    split; [exact Hlines|].
    fold b in Hlines. rewrite Hlines, length_fmap. apply multiples_upto.
Qed.

(** The three-row fixture ends normally; two rows pass the filter. *)
Lemma status_line_every_100000_matching_rows_witness :
  let b := Examples.run (Options true true Examples.ENG true) in
  filter is_status (stdout b)
  = (fun j => StatusLine j (Ratio j (Examples.countlines_spec Examples.mrconso)))
      <$> filter (fun j => j mod 100000 = 0) (seqZ 1 2)
  ∧ length (filter is_status (stdout b)) = Z.to_nat (2 / 100000).
Proof.
  apply (status_line_every_100000_matching_rows
           Examples.latin_lower Examples.latin_unidecode Examples.countlines_spec
           (Options true true Examples.ENG true) Examples.mrconso Examples.mrsty
           Examples.mrconso_header Examples.mrsty_header).
  vm_compute. reflexivity.
Defined.

(** One hundred thousand rows in the filter language: one status line,
    for the count 100000. *)
Example status_line_after_100000_matching_rows :
  let b := main Examples.latin_lower Examples.latin_unidecode
                Examples.countlines_spec
                (Options false false Examples.ENG false)
                Examples.english_file Examples.mrsty
                Examples.mrconso_header Examples.mrsty_header in
  raised b = None
  ∧ filter is_status (stdout b) = [StatusLine 100000 (Ratio 100000 100000)].
Proof.
  assert (Hlen : Examples.countlines_spec Examples.english_file = 100000).
  { unfold Examples.countlines_spec, Examples.english_file.
    rewrite length_replicate. lia. }
  assert (Hm : lat_matches Examples.mrconso_header Examples.ENG
                           Examples.english_row) by (vm_compute; reflexivity).
  pose proof (main_replicate_raised
                Examples.latin_lower Examples.latin_unidecode
                Examples.countlines_spec
                (Options false false Examples.ENG false)
                (Z.to_nat 100000) Examples.english_row Examples.mrsty
                Examples.mrconso_header Examples.mrsty_header
                Examples.sem_types
                (TermRecord (py "Aspirin") (py "C0001") [py "T001"]
                            (py "MTH") (py "PN") 1)
                ltac:(vm_compute; reflexivity) Hm
                ltac:(vm_compute; reflexivity)
                ltac:(fold Examples.english_file; rewrite Hlen; lia)) as Hnone.
  fold Examples.english_file in Hnone.
  split; [exact Hnone|].
  rewrite (main_status_lines _ _ _ _ _ _ _ _ Hnone), Hlen.
  cbn [language]. unfold Examples.english_file.
  rewrite (filter_lat_matches_replicate (Z.to_nat 100000) Examples.english_row
             Examples.mrconso_header Examples.ENG Hm).
  rewrite length_replicate, Z2Nat.id by lia.
  by rewrite multiples_in_first_100000.
Qed.

Lemma get_mrconso_iterator_replicate_differs n row headers lang :
  lat_differs headers lang row →
  get_mrconso_iterator (replicate n row) headers lang = Return.
Proof.
  unfold lat_differs. intros Hd. induction n as [|n IH]; [done|].
  cbn [replicate]. rewrite get_mrconso_iterator_cons.
  destruct (row_content headers row !! k_lat) as [lat|]; [|done].
  by rewrite decide_False.
Qed.

(** C7 fails as it is worded: a vocabulary file of 100000 rows, none in
    the filter language, is read to its end, the run ends normally, and
    no status line has been printed. *)
Lemma no_status_line_after_100000_rows_read :
  let b := main Examples.latin_lower Examples.latin_unidecode
                Examples.countlines_spec
                (Options false false Examples.ENG false)
                Examples.spanish_file Examples.mrsty
                Examples.mrconso_header Examples.mrsty_header in
  Z.of_nat (length Examples.spanish_file) = 100000
  ∧ raised b = None
  ∧ stdout b = [LoadingLine; DoneLine; CompletedLine 0 (Ratio 0 100000)]
  ∧ length (filter is_status (stdout b))
    ≠ Z.to_nat (Z.of_nat (length Examples.spanish_file) / 100000).
Proof.
  assert (Hlen : Z.of_nat (length Examples.spanish_file) = 100000).
  { unfold Examples.spanish_file. rewrite length_replicate. lia. }
  assert (Hb : main Examples.latin_lower Examples.latin_unidecode
                 Examples.countlines_spec
                 (Options false false Examples.ENG false)
                 Examples.spanish_file Examples.mrsty
                 Examples.mrconso_header Examples.mrsty_header
               = Build ∅ [] [] []
                   [LoadingLine; DoneLine; CompletedLine 0 (Ratio 0 100000)]
                   None).
  { unfold main, extract_from_mrconso, parse_and_encode_ngrams.
    replace (get_semantic_types Examples.mrsty Examples.mrsty_header)
      with (Ok Examples.sem_types) by (vm_compute; reflexivity).
    unfold Examples.countlines_spec. rewrite Hlen.
    unfold Examples.spanish_file.
    rewrite get_mrconso_iterator_replicate_differs
      by (vm_compute; intros [=]).
    reflexivity. }
  cbn zeta. rewrite Hb, Hlen. cbn [raised stdout]. split_and!; try done.
Qed.

(** ** Order of the text transformations *)

(** C5: with both flags set, the text of the record is
    [unidecode(lower(str.strip()))]: folding to lowercase comes first and
    unicode normalisation second.  For the text "Café", with
    [lower] and [unidecode] acting on it as the Python functions do, the
    record holds "cafe", which is neither "café" nor "CAFE". *)
Theorem lowercase_before_unidecode
    (lower unidecode : pystr -> pystr) (opts : options)
    (sem_types : gmap pystr (list pystr)) (content : gmap pystr pystr)
    (s : pystr) (r : term_record) :
  lowercase opts = true →
  normalize_unicode opts = true →
  content !! k_str = Some s →
  extract_row lower unidecode opts sem_types content = Ok r →
  term r = unidecode (lower (strip s))
  ∧ (strip s = Cafe_acute →
     lower Cafe_acute = cafe_acute →
     unidecode cafe_acute = cafe_plain →
     term r = cafe_plain ∧ term r ≠ cafe_acute ∧ term r ≠ CAFE_upper).
Proof.
  intros Hl Hu Hs Hrow.
  apply extract_row_Ok in Hrow as (s' & ip & Hs' & _ & _ & _ & _ & _ & Ht & _).
  rewrite Hs in Hs'. injection Hs' as <-.
  unfold transformed in Ht. rewrite Hl, Hu in Ht. split; [done|].
  intros Hcafe Hlower Hplain. rewrite Ht, Hcafe, Hlower, Hplain.
  split_and!; [done| |]; by vm_compute.
Qed.

(** The scenario with stand-ins for the two library functions that act
    on these letters as the Python functions do. *)
Lemma lowercase_before_unidecode_witness :
  let r := TermRecord (py "cafe") (py "C0001") [py "T001"]
                      (py "MTH") (py "PN") 1 in
  let s := (32 :: Cafe_acute ++ [32])%N in
  term r = Examples.latin_unidecode (Examples.latin_lower (strip s))
  ∧ (strip s = Cafe_acute →
     Examples.latin_lower Cafe_acute = cafe_acute →
     Examples.latin_unidecode cafe_acute = cafe_plain →
     term r = cafe_plain ∧ term r ≠ cafe_acute ∧ term r ≠ CAFE_upper).
Proof.
  apply (lowercase_before_unidecode
           Examples.latin_lower Examples.latin_unidecode
           (Options true true Examples.ENG true) Examples.sem_types
           Examples.cafe_content).
  - reflexivity.
  - reflexivity.
  - vm_compute. reflexivity.
  - vm_compute. reflexivity.
Defined.

(** Each function alone leaves the accent or the capital. *)
Example unidecode_before_lowercase_differs :
  Examples.latin_unidecode (Examples.latin_lower Cafe_acute) = py "cafe"
  ∧ Examples.latin_lower Cafe_acute = cafe_acute
  ∧ Examples.latin_unidecode Cafe_acute = py "Cafe".
Proof. vm_compute. repeat split; reflexivity. Qed.

(** ** Lines with fewer fields than the schema *)

Lemma zip_fst_take {A B} (hs : list A) (fs : list B) :
  (zip hs fs).*1 = take (length fs) hs.
Proof.
  revert fs. induction hs as [|h hs IH]; intros [|f fs]; simpl; try done.
  by rewrite IH.
Qed.

Lemma dict_snoc {V} (pairs : list (pystr * V)) kv :
  dict (pairs ++ [kv]) = <[kv.1 := kv.2]> (dict pairs).
Proof. unfold dict. by rewrite fold_left_app. Qed.

Lemma dict_lookup_is_Some {V} (pairs : list (pystr * V)) key :
  is_Some (dict pairs !! key) ↔ key ∈ pairs.*1.
Proof.
  induction pairs as [|kv pairs IH] using rev_ind.
  - unfold dict. simpl. rewrite lookup_empty, elem_of_nil.
    split; [by intros []|done].
  - rewrite dict_snoc, fmap_app, elem_of_app, lookup_insert_is_Some', IH.
    simpl. rewrite list_elem_of_singleton. naive_solver.
Qed.

(** Truncated field assignment: exactly the first [n] names of the schema
    are bound, [n] being the number of fields of the line. *)
Lemma row_content_is_Some headers ln key :
  is_Some (row_content headers ln !! key)
  ↔ key ∈ take (length (split bar (strip ln))) headers.
Proof. unfold row_content. by rewrite dict_lookup_is_Some, zip_fst_take. Qed.

Lemma row_content_None headers ln key :
  row_content headers ln !! key = None
  ↔ key ∉ take (length (split bar (strip ln))) headers.
Proof. rewrite <- row_content_is_Some, eq_None_not_Some. done. Qed.

Lemma get_semantic_types_step_Raise headers sem_types sem_types2 ln e :
  get_semantic_types_step headers sem_types ln = Raise e →
  get_semantic_types_step headers sem_types2 ln = Raise e.
Proof.
  unfold get_semantic_types_step, getitem.
  destruct (row_content headers ln !! k_cui); simpl; [|done].
  destruct (row_content headers ln !! k_sty); simpl; done.
Qed.

Lemma get_semantic_types_loop_abort headers pre ln post sem_types0 sem_types e :
  get_semantic_types_step headers sem_types0 ln = Raise e →
  ∃ e', get_semantic_types_loop headers (pre ++ ln :: post) sem_types = Raise e'.
Proof.
  intros Hstep. revert sem_types.
  induction pre as [|ln' pre IH]; intros sem_types; cbn [app get_semantic_types_loop].
  - rewrite (get_semantic_types_step_Raise _ _ sem_types _ _ Hstep). simpl. eauto.
  - destruct (get_semantic_types_step headers sem_types ln'); simpl; eauto.
Qed.

(** C8, as the code has it: a line with fewer fields than the schema binds
    only the first [n] names of the schema, [n] being its number of
    fields.  The semantic-type loader processes the line exactly when
    'cui' and 'sty' are both among these names; otherwise the lookup of
    the missing name raises [KeyError] and the load of any file that
    contains the line fails.  The vocabulary iterator raises [KeyError]
    on the line when 'lat' is not among the names, and otherwise skips or
    yields it; a record is built from the line only if 'str', 'cui',
    'sab', 'tty' and 'ispref' are all among them. *)
Theorem short_line_tolerated_when_read_fields_bound
    (lower unidecode : pystr -> pystr) (headers : list pystr) (ln : pystr) :
  let n := length (split bar (strip ln)) in
  (n < length headers)%nat →
  (∀ key, is_Some (row_content headers ln !! key) ↔ key ∈ take n headers)
  ∧ (∀ sem_types,
       (∃ sem_types', get_semantic_types_step headers sem_types ln = Ok sem_types')
       ↔ k_cui ∈ take n headers ∧ k_sty ∈ take n headers)
  ∧ (¬ (k_cui ∈ take n headers ∧ k_sty ∈ take n headers) →
     ∀ pre post, ∃ e, get_semantic_types (pre ++ ln :: post) headers = Raise e)
  ∧ (∀ path lang,
       (k_lat ∉ take n headers →
        get_mrconso_iterator (ln :: path) headers lang = Throw (KeyError k_lat))
       ∧ (k_lat ∈ take n headers →
          ∃ lat, row_content headers ln !! k_lat = Some lat
                 ∧ get_mrconso_iterator (ln :: path) headers lang
                   = if decide (lat = lang)
                     then Yield (row_content headers ln)
                                (get_mrconso_iterator path headers lang)
                     else get_mrconso_iterator path headers lang))
  ∧ (∀ opts sem_types r,
       extract_row lower unidecode opts sem_types (row_content headers ln) = Ok r →
       Forall (fun key => key ∈ take n headers)
              [k_str; k_cui; k_sab; k_tty; k_ispref]).
Proof.
  intros n _. subst n.
  assert (Hstep : ∀ sem_types,
    (∃ sem_types', get_semantic_types_step headers sem_types ln = Ok sem_types')
    ↔ k_cui ∈ take (length (split bar (strip ln))) headers
      ∧ k_sty ∈ take (length (split bar (strip ln))) headers).
  { intros sem_types. rewrite <- !row_content_is_Some. split.
    - intros [sem' H]. apply get_semantic_types_step_Ok in H.
      destruct H as (c & s & -> & -> & _). eauto.
    - intros [[c Hc] [s Hs]]. eexists.
      apply get_semantic_types_step_Ok. eauto. }
  split_and!.
  - intros key. apply row_content_is_Some.
  - exact Hstep.
  - intros Hmiss pre post.
    destruct (get_semantic_types_step headers ∅ ln) as [sem'|e] eqn:Hs.
    + destruct Hmiss. apply (Hstep ∅). eauto.
    + eapply get_semantic_types_loop_abort. exact Hs.
  - intros path lang. rewrite get_mrconso_iterator_cons. split.
    + intros Hlat. apply row_content_None in Hlat. by rewrite Hlat.
    + intros Hlat. apply row_content_is_Some in Hlat as [lat Hlat].
      exists lat. by rewrite Hlat.
  - intros opts sem_types r Hrow.
    apply extract_row_Ok in Hrow as (s & ip & ? & ? & ? & ? & ? & _).
    repeat (apply Forall_cons; split; [apply row_content_is_Some; eauto|]).
    constructor.
Qed.

(** A two-field line under a three-name schema is loaded. *)
Lemma short_line_tolerated_when_read_fields_bound_witness :
  let headers := [k_cui; k_sty; py "hier"] in
  let ln := py "C0001|T001" in
  ∃ sem_types', get_semantic_types_step headers ∅ ln = Ok sem_types'.
Proof.
  intros headers ln.
  destruct (short_line_tolerated_when_read_fields_bound
              Examples.latin_lower Examples.latin_unidecode headers ln)
    as (_ & Hstep & _).
  - vm_compute. lia.
  - apply (Hstep ∅). split; vm_compute;
      [apply list_elem_of_here | apply list_elem_of_further, list_elem_of_here].
Defined.

(** C8 fails as it is worded: a semantic-type line with the identifier
    alone, and a vocabulary line with the identifier alone, each have fewer
    fields than their schema, and each ends the run with a [KeyError]. *)
Lemma short_line_aborts_the_run :
  let ln := py "C0001" in
  (length (split bar (strip ln)) < length Examples.mrsty_header)%nat
  ∧ (length (split bar (strip ln)) < length Examples.mrconso_header)%nat
  ∧ get_semantic_types [ln] Examples.mrsty_header = Raise (KeyError k_sty)
  ∧ raised (main Examples.latin_lower Examples.latin_unidecode
                 Examples.countlines_spec
                 (Options false false Examples.ENG false)
                 Examples.mrconso [ln]
                 Examples.mrconso_header Examples.mrsty_header)
    = Some (KeyError k_sty)
  ∧ get_mrconso_iterator [ln] Examples.mrconso_header Examples.ENG
    = Throw (KeyError k_lat)
  ∧ raised (main Examples.latin_lower Examples.latin_unidecode
                 Examples.countlines_spec
                 (Options false false Examples.ENG false)
                 [ln] Examples.mrsty
                 Examples.mrconso_header Examples.mrsty_header)
    = Some (KeyError k_lat).
Proof. vm_compute. split_and!; try reflexivity; lia. Qed.

(** ** Stripping and splitting *)

Section Strings.

Implicit Types (x y s : pystr) (c sep : N) (fs : list pystr).

Lemma is_space_bar : is_space bar = false.
Proof. reflexivity. Qed.

Lemma lstrip_app x y :
  lstrip (x ++ y) = match lstrip x with [] => lstrip y | _ => lstrip x ++ y end.
Proof.
  induction x as [|c x IH]; simpl.
  - by destruct (lstrip y).
  - by destruct (is_space c).
Qed.

Lemma lstrip_app_nonspace x c y :
  is_space c = false → lstrip (x ++ c :: y) = lstrip x ++ c :: y.
Proof.
  intros Hc. rewrite lstrip_app. simpl. rewrite Hc. by destruct (lstrip x).
Qed.

Lemma lstrip_head x c y : lstrip x = c :: y → is_space c = false.
Proof.
  induction x as [|c' x IH]; simpl; [done|].
  destruct (is_space c') eqn:Hc'; [done|]. by intros [= <- _].
Qed.

Lemma lstrip_idemp x : lstrip (lstrip x) = lstrip x.
Proof.
  destruct (lstrip x) as [|c y] eqn:Hx; [done|].
  simpl. by rewrite (lstrip_head _ _ _ Hx).
Qed.

Lemma rstrip_nil_iff x : rstrip x = [] ↔ lstrip (reverse x) = [].
Proof.
  unfold rstrip. split; [|by intros ->].
  intros H. apply (f_equal reverse) in H. by rewrite reverse_involutive in H.
Qed.

Lemma rstrip_app x y :
  rstrip (x ++ y) = match rstrip y with [] => rstrip x | _ => x ++ rstrip y end.
Proof.
  unfold rstrip at 1. rewrite reverse_app, lstrip_app.
  destruct (lstrip (reverse y)) as [|c l] eqn:Hy.
  - by rewrite (proj2 (rstrip_nil_iff y) Hy).
  - destruct (rstrip y) as [|c' l'] eqn:Hr.
    + apply rstrip_nil_iff in Hr. congruence.
    + rewrite <- Hr. unfold rstrip. rewrite Hy.
      by rewrite reverse_app, reverse_involutive.
Qed.

Lemma rstrip_singleton c : rstrip [c] = if is_space c then [] else [c].
Proof. unfold rstrip. simpl. by destruct (is_space c). Qed.

Lemma rstrip_cons c y :
  rstrip (c :: y)
  = match rstrip y with [] => rstrip [c] | _ => c :: rstrip y end.
Proof. apply (rstrip_app [c] y). Qed.

Lemma rstrip_cons_nonspace c y :
  is_space c = false → rstrip (c :: y) = c :: rstrip y.
Proof.
  intros Hc. rewrite rstrip_cons, rstrip_singleton, Hc. by destruct (rstrip y).
Qed.

Lemma rstrip_app_nonspace x c y :
  is_space c = false → rstrip (x ++ c :: y) = x ++ c :: rstrip y.
Proof.
  intros Hc. by rewrite rstrip_app, rstrip_cons_nonspace.
Qed.

Lemma rstrip_idemp x : rstrip (rstrip x) = rstrip x.
Proof. unfold rstrip. by rewrite reverse_involutive, lstrip_idemp. Qed.

Lemma lstrip_rstrip x : lstrip (rstrip x) = rstrip (lstrip x).
Proof.
  induction x as [|c x IH]; [done|].
  destruct (is_space c) eqn:Hc.
  - cbn [lstrip]. rewrite Hc, <- IH, rstrip_cons, rstrip_singleton, Hc.
    destruct (rstrip x); simpl; by rewrite ?Hc.
  - cbn [lstrip]. rewrite Hc, rstrip_cons_nonspace by done.
    simpl. by rewrite Hc.
Qed.

Lemma strip_lstrip x : strip (lstrip x) = strip x.
Proof. unfold strip. by rewrite lstrip_idemp. Qed.

Lemma strip_rstrip x : strip (rstrip x) = strip x.
Proof. unfold strip. by rewrite lstrip_rstrip, rstrip_idemp. Qed.

Lemma strip_idemp x : strip (strip x) = strip x.
Proof. unfold strip at 2. by rewrite strip_rstrip, strip_lstrip. Qed.

Lemma lstrip_subseteq x c : c ∈ lstrip x → c ∈ x.
Proof.
  induction x as [|c' x IH]; simpl; [done|].
  destruct (is_space c'); [|done]. intros H. right. auto.
Qed.

Lemma rstrip_subseteq x c : c ∈ rstrip x → c ∈ x.
Proof.
  unfold rstrip. rewrite elem_of_reverse. intros H.
  apply lstrip_subseteq in H. by apply elem_of_reverse.
Qed.

Lemma strip_subseteq x c : c ∈ strip x → c ∈ x.
Proof. unfold strip. intros H. by apply lstrip_subseteq, rstrip_subseteq. Qed.

Lemma split_nonempty sep x : split sep x ≠ [].
Proof.
  destruct x as [|c x]; simpl; [done|].
  destruct (c =? sep)%N; [done|]. by destruct (split sep x).
Qed.

Lemma split_app_sep sep x y :
  split sep (x ++ sep :: y) = split sep x ++ split sep y.
Proof.
  induction x as [|c x IH]; simpl.
  - by rewrite N.eqb_refl.
  - destruct (c =? sep)%N; [by rewrite IH|].
    rewrite IH. pose proof (split_nonempty sep x).
    by destruct (split sep x).
Qed.

Lemma split_nosep sep x : sep ∉ x → split sep x = [x].
Proof.
  induction x as [|c x IH]; [done|]. intros Hx.
  apply not_elem_of_cons in Hx as [Hc Hx]. simpl.
  destruct (N.eqb_spec c sep); [congruence|]. by rewrite IH.
Qed.

Lemma split_join sep fs :
  fs ≠ [] → Forall (fun f => sep ∉ f) fs → split sep (join sep fs) = fs.
Proof.
  induction fs as [|f fs IH]; [done|]. intros _ Hfs.
  apply Forall_cons in Hfs as [Hf Hfs].
  destruct fs as [|g fs]; [by apply split_nosep|].
  change (join sep (f :: g :: fs)) with (f ++ sep :: join sep (g :: fs)).
  by rewrite split_app_sep, split_nosep, IH.
Qed.

Lemma length_split_lstrip x :
  length (split bar (lstrip x)) = length (split bar x).
Proof.
  induction x as [|c x IH]; [done|]. cbn [lstrip].
  destruct (is_space c) eqn:Hc; [|done]. rewrite IH. cbn [split].
  destruct (N.eqb_spec c bar) as [->|_]; [by rewrite is_space_bar in Hc|].
  pose proof (split_nonempty bar x). by destruct (split bar x).
Qed.

End Strings.

(** ** A field with blanks around its text *)

Section FieldBlanks.

Implicit Types (s : pystr) (fs : list pystr) (headers : list pystr).

Lemma join_cons_cons sep f g fs :
  join sep (f :: g :: fs) = f ++ sep :: join sep (g :: fs).
Proof. done. Qed.

(** A line as the text before a field, the field, and the text after it. *)
Lemma join_middle sep fs1 s fs2 :
  join sep (fs1 ++ s :: fs2)
  = match fs1 with [] => [] | _ => join sep fs1 ++ [sep] end
    ++ s ++ match fs2 with [] => [] | _ => sep :: join sep fs2 end.
Proof.
  induction fs1 as [|f fs1 IH].
  - destruct fs2; simpl; by rewrite ?app_nil_r.
  - destruct fs1 as [|g fs1].
    + change (join sep ([f] ++ s :: fs2)) with (f ++ sep :: join sep ([] ++ s :: fs2)).
      rewrite IH. simpl. by rewrite <- app_assoc.
    + change (join sep ((f :: g :: fs1) ++ s :: fs2))
        with (f ++ sep :: join sep ((g :: fs1) ++ s :: fs2)).
      rewrite IH, join_cons_cons. by rewrite <- !app_assoc.
Qed.

(** The fields of a line after [strip] and [split]: those before position
    [length fs1] and those after it do not depend on the field at that
    position, and this field keeps its text up to surrounding blanks. *)
Lemma fields_of_join fs1 s fs2 :
  Forall (fun f => bar ∉ f) fs1 → bar ∉ s →
  let A := match fs1 with [] => [] | _ => split bar (lstrip (join bar fs1)) end in
  let B := match fs2 with [] => [] | _ => split bar (rstrip (join bar fs2)) end in
  length A = length fs1
  ∧ ∃ s1, split bar (strip (join bar (fs1 ++ s :: fs2))) = A ++ s1 :: B
          ∧ strip s1 = strip s.
Proof.
  intros Hfs1 Hs A B. split.
  - subst A. destruct fs1 as [|f fs1]; [done|].
    by rewrite length_split_lstrip, split_join.
  - rewrite join_middle. unfold strip at 1. subst A B.
    destruct fs1 as [|f fs1], fs2 as [|g fs2].
    + exists (strip s). rewrite app_nil_l, app_nil_r.
      split; [|apply strip_idemp].
      apply split_nosep. intros H. by apply strip_subseteq in H.
    + exists (lstrip s). rewrite app_nil_l.
      rewrite lstrip_app_nonspace, rstrip_app_nonspace by apply is_space_bar.
      rewrite split_app_sep, (split_nosep _ (lstrip s));
        [split; [reflexivity|apply strip_lstrip]|].
      intros H. by apply lstrip_subseteq in H.
    + exists (rstrip s). rewrite app_nil_r, <- app_assoc. cbn [app].
      rewrite lstrip_app_nonspace, rstrip_app_nonspace by apply is_space_bar.
      rewrite split_app_sep, (split_nosep _ (rstrip s));
        [split; [reflexivity|apply strip_rstrip]|].
      intros H. by apply rstrip_subseteq in H.
    + exists s. rewrite <- app_assoc. cbn [app].
      rewrite lstrip_app_nonspace by apply is_space_bar.
      rewrite (app_comm_cons s), app_assoc.
      rewrite rstrip_app_nonspace by apply is_space_bar.
      rewrite !split_app_sep, (split_nosep _ s) by done.
      rewrite <- app_assoc. split; reflexivity.
Qed.

Lemma same_but_blanks_fold (pairs : list (pystr * pystr)) d1 d2 :
  same_but_blanks d1 d2 →
  same_but_blanks (fold_left (fun d kv => <[kv.1 := kv.2]> d) pairs d1)
                  (fold_left (fun d kv => <[kv.1 := kv.2]> d) pairs d2).
Proof.
  revert d1 d2. induction pairs as [|[k v] pairs IH]; intros d1 d2 H; [done|].
  simpl. apply IH. intros key. destruct (H key) as [H1 H2].
  destruct (decide (k = key)) as [->|Hne].
  - by rewrite !lookup_insert_eq.
  - by rewrite !lookup_insert_ne.
Qed.

Lemma same_but_blanks_zip headers A B s1 s2 :
  headers !! length A = Some k_str → strip s1 = strip s2 →
  same_but_blanks (dict (zip headers (A ++ s1 :: B)))
                  (dict (zip headers (A ++ s2 :: B))).
Proof.
  intros Hk Hs. unfold dict.
  rewrite <- (take_drop (length A) headers).
  rewrite !zip_with_app by (rewrite length_take; apply lookup_lt_Some in Hk; lia).
  rewrite (drop_S _ _ _ Hk). cbn [zip_with]. rewrite !fold_left_app. cbn [fold_left].
  apply same_but_blanks_fold. intros key.
  destruct (decide (k_str = key)) as [<-|Hne]; simpl.
  - rewrite !lookup_insert_eq. simpl. by rewrite Hs.
  - by rewrite !lookup_insert_ne.
Qed.

End FieldBlanks.

Section StrippedFirst.

Variable lower : pystr -> pystr.
Variable unidecode : pystr -> pystr.

Lemma extract_row_same_but_blanks opts sem_types d1 d2 :
  same_but_blanks d1 d2 →
  extract_row lower unidecode opts sem_types d1
  = extract_row lower unidecode opts sem_types d2.
Proof.
  intros H. unfold extract_row, getitem.
  destruct (H k_str) as [_ Hstr].
  rewrite <- (proj1 (H k_cui)), <- (proj1 (H k_sab)), <- (proj1 (H k_tty)),
    <- (proj1 (H k_ispref)) by done.
  destruct (d1 !! k_str) as [s1|], (d2 !! k_str) as [s2|]; simpl in *;
    try done.
  injection Hstr as ->. done.
Qed.

Lemma extract_loop_same_but_blanks pre row row' post headers lang opts
    sem_types total i :
  same_but_blanks (row_content headers row) (row_content headers row') →
  extract_loop lower unidecode
    (get_mrconso_iterator (pre ++ row :: post) headers lang) opts sem_types total i
  = extract_loop lower unidecode
      (get_mrconso_iterator (pre ++ row' :: post) headers lang) opts sem_types
      total i.
Proof.
  intros H. revert i. induction pre as [|ln pre IH]; intros i.
  - rewrite !app_nil_l, !get_mrconso_iterator_cons.
    rewrite <- (proj1 (H k_lat)) by done.
    destruct (row_content headers row !! k_lat) as [lat|]; [|done].
    case_decide; [|done]. cbn [extract_loop].
    by rewrite (extract_row_same_but_blanks _ _ _ _ H).
  - rewrite <- !app_comm_cons, !(get_mrconso_iterator_cons ln).
    destruct (row_content headers ln !! k_lat) as [lat|]; [|done].
    case_decide; [|apply IH]. cbn [extract_loop]. by rewrite IH.
Qed.

End StrippedFirst.

(** C10: the text of a record is obtained by applying the optional
    lowercase folding and unicode normalisation to the stripped [str]
    field.  Consequently a row whose [str] field (the field at the schema
    position named 'str') has blanks around its text and the same row
    without these blanks pass the language filter alike, give the same
    record or the same error, and leave the whole output of the extractor
    unchanged wherever the row stands in the file. *)
Theorem surface_text_stripped_first
    (lower unidecode : pystr -> pystr) (opts : options)
    (sem_types : gmap pystr (list pystr)) (headers : list pystr)
    (fs1 fs2 : list pystr) (s : pystr) :
  Forall (fun f => bar ∉ f) fs1 →
  bar ∉ s →
  headers !! length fs1 = Some k_str →
  let row := join bar (fs1 ++ s :: fs2) in
  let row' := join bar (fs1 ++ strip s :: fs2) in
  (∀ content s0 r,
     content !! k_str = Some s0 →
     extract_row lower unidecode opts sem_types content = Ok r →
     term r
     = (if normalize_unicode opts then unidecode else id)
         ((if lowercase opts then lower else id) (strip s0)))
  ∧ row_content headers row !! k_lat = row_content headers row' !! k_lat
  ∧ extract_row lower unidecode opts sem_types (row_content headers row)
    = extract_row lower unidecode opts sem_types (row_content headers row')
  ∧ (∀ pre post total i,
       extract_loop lower unidecode
         (get_mrconso_iterator (pre ++ row :: post) headers (language opts))
         opts sem_types total i
       = extract_loop lower unidecode
           (get_mrconso_iterator (pre ++ row' :: post) headers (language opts))
           opts sem_types total i).
Proof.
  intros Hfs1 Hs Hk row row'.
  assert (Hrel : same_but_blanks (row_content headers row)
                                 (row_content headers row')).
  { subst row row'. unfold row_content.
    destruct (fields_of_join fs1 s fs2 Hfs1 Hs) as (HA & s1 & -> & Hs1).
    destruct (fields_of_join fs1 (strip s) fs2 Hfs1) as (_ & s2 & -> & Hs2).
    { intros Hin. by apply strip_subseteq in Hin. }
    apply same_but_blanks_zip; [by rewrite HA|].
    by rewrite Hs1, Hs2, strip_idemp. }
  split_and!.
  - intros content s0 r Hs0 Hrow.
    apply extract_row_Ok in Hrow as (s' & ip & Hs' & _ & _ & _ & _ & _ & -> & _).
    rewrite Hs0 in Hs'. injection Hs' as <-. unfold transformed.
    by destruct (lowercase opts), (normalize_unicode opts).
  - apply (Hrel k_lat). done.
  - by apply extract_row_same_but_blanks.
  - intros pre post total i. by apply extract_loop_same_but_blanks.
Qed.

(** A row whose text stands between blanks, in the middle of the line. *)
Lemma surface_text_stripped_first_witness :
  let headers := [k_cui; k_lat; k_str; k_sab; k_tty; k_ispref] in
  let opts := Options true true Examples.ENG true in
  extract_row Examples.latin_lower Examples.latin_unidecode opts
    Examples.sem_types
    (row_content headers (py "C0001|ENG|  Aspirin |MTH|PN|Y"))
  = Ok (TermRecord (py "aspirin") (py "C0001") [py "T001"]
                   (py "MTH") (py "PN") 1)
  ∧ extract_row Examples.latin_lower Examples.latin_unidecode opts
      Examples.sem_types
      (row_content headers (py "C0001|ENG|  Aspirin |MTH|PN|Y"))
    = extract_row Examples.latin_lower Examples.latin_unidecode opts
        Examples.sem_types
        (row_content headers (py "C0001|ENG|Aspirin|MTH|PN|Y")).
Proof.
  intros headers opts. split; [vm_compute; reflexivity|].
  destruct (surface_text_stripped_first
              Examples.latin_lower Examples.latin_unidecode opts
              Examples.sem_types headers
              [py "C0001"; py "ENG"] [py "MTH"; py "PN"; py "Y"]
              (py "  Aspirin "))
    as (_ & _ & Hsame & _).
  - repeat constructor; compute_done.
  - compute_done.
  - reflexivity.
  - exact Hsame.
Defined.

(** * Further properties *)

(** ** The loader *)

Lemma get_semantic_types_loop_app headers f1 f2 sem_types :
  get_semantic_types_loop headers (f1 ++ f2) sem_types
  = let! sem_types' := get_semantic_types_loop headers f1 sem_types in
    get_semantic_types_loop headers f2 sem_types'.
Proof.
  revert sem_types. induction f1 as [|ln f1 IH]; intros sem_types; [done|].
  cbn [app get_semantic_types_loop].
  destruct (get_semantic_types_step headers sem_types ln); [apply IH|done].
Qed.

Lemma get_semantic_types_step_loadable headers sem_types ln :
  get_semantic_types_step headers sem_types ln
  = match row_content headers ln !! k_cui, row_content headers ln !! k_sty with
    | None, _ => Raise (KeyError k_cui)
    | Some _, None => Raise (KeyError k_sty)
    | Some c, Some s =>
        Ok (<[c := default [] (sem_types !! c) ++ [s]]> sem_types)
    end.
Proof.
  unfold get_semantic_types_step, getitem.
  destruct (row_content headers ln !! k_cui); [|done].
  by destruct (row_content headers ln !! k_sty).
Qed.

Lemma get_semantic_types_loop_loadable headers f sem_types :
  Forall (loadable headers) f →
  ∃ sem_types', get_semantic_types_loop headers f sem_types = Ok sem_types'.
Proof.
  intros Hf. revert sem_types.
  induction Hf as [|ln f [[c Hc] [s Hs]] _ IH]; intros sem_types; [by eexists|].
  cbn [get_semantic_types_loop].
  rewrite get_semantic_types_step_loadable, Hc, Hs. apply IH.
Qed.

Lemma get_semantic_types_loop_Ok_loadable headers f sem_types sem_types' :
  get_semantic_types_loop headers f sem_types = Ok sem_types' →
  Forall (loadable headers) f.
Proof.
  revert sem_types. induction f as [|ln f IH]; intros sem_types; [done|].
  cbn [get_semantic_types_loop].
  destruct (get_semantic_types_step headers sem_types ln) as [sem1|e] eqn:Hstep;
    [|done].
  intros Hloop. constructor; [|by eapply IH].
  apply get_semantic_types_step_Ok in Hstep as (c & s & Hc & Hs & _).
  split; red; eauto.
Qed.

(** X1: when the semantic-type table loads, the map holds exactly the
    identifiers that occur in the table: an identifier without a line is
    absent, and any other is bound to the [sty] values of its lines, all
    of them and in file order. *)
Theorem loaded_map_is_the_table (headers path : list pystr)
    (sem_types : gmap pystr (list pystr)) (c : pystr) :
  get_semantic_types path headers = Ok sem_types →
  sem_types !! c
  = (if decide (table_stys headers path c = []) then None
     else Some (table_stys headers path c)).
Proof.
  intros Hload.
  destruct (get_semantic_types_loop_lookup _ _ _ _ c Hload) as [Hval Hdom].
  rewrite lookup_empty in Hval, Hdom. simpl in Hval.
  destruct (sem_types !! c) as [l|] eqn:Hc; simpl in Hval; subst.
  - rewrite decide_False; [done|].
    destruct Hdom as [[? [=]]|H]; eauto.
  - by rewrite decide_True.
Qed.

(** The fixture table, asked for a known and for an unknown identifier. *)
Lemma loaded_map_is_the_table_witness :
  Examples.sem_types !! py "C0001"
  = (if decide (table_stys Examples.mrsty_header Examples.mrsty (py "C0001") = [])
     then None
     else Some (table_stys Examples.mrsty_header Examples.mrsty (py "C0001"))).
Proof.
  apply (loaded_map_is_the_table Examples.mrsty_header Examples.mrsty).
  vm_compute. reflexivity.
Defined.

(** X2: the table loads if and only if each of its lines binds both 'cui'
    and 'sty' (an empty table loads).  Otherwise the load stops at the
    first line that does not, with [KeyError('cui')] when that line binds
    no 'cui' and with [KeyError('sty')] when it binds 'cui' alone. *)
Theorem load_succeeds_iff_lines_loadable (headers path : list pystr) :
  ((∃ sem_types, get_semantic_types path headers = Ok sem_types)
   ↔ Forall (loadable headers) path)
  ∧ (∀ pre ln post,
       path = pre ++ ln :: post →
       Forall (loadable headers) pre →
       ¬ loadable headers ln →
       get_semantic_types path headers
       = Raise (KeyError (if decide (binds headers ln k_cui)
                          then k_sty else k_cui))).
Proof.
  split.
  - split.
    + intros [sem Hload]. by eapply get_semantic_types_loop_Ok_loadable.
    + apply get_semantic_types_loop_loadable.
  - intros pre ln post -> Hpre Hln. unfold get_semantic_types.
    rewrite get_semantic_types_loop_app.
    destruct (get_semantic_types_loop_loadable headers pre ∅ Hpre) as [sem ->].
    cbn [bind get_semantic_types_loop].
    rewrite get_semantic_types_step_loadable.
    destruct (row_content headers ln !! k_cui) as [c|] eqn:Hc.
    + rewrite decide_True by (unfold binds; rewrite Hc; eauto).
      destruct (row_content headers ln !! k_sty) as [s|] eqn:Hs; [|done].
      destruct Hln. unfold loadable, binds. rewrite Hc, Hs. eauto.
    + rewrite decide_False; [done|].
      unfold binds. rewrite Hc. by intros [? [=]].
Qed.

(** A table whose second line is blank. *)
Lemma load_succeeds_iff_lines_loadable_witness :
  get_semantic_types [py "C0001|T001"; []; py "C0002|T002"] Examples.mrsty_header
  = Raise (KeyError k_sty).
Proof.
  destruct (load_succeeds_iff_lines_loadable Examples.mrsty_header
              [py "C0001|T001"; []; py "C0002|T002"]) as [_ H].
  apply (H [py "C0001|T001"] [] [py "C0002|T002"]).
  - reflexivity.
  - repeat constructor; vm_compute; eauto.
  - vm_compute. intros [_ [? [=]]].
Defined.

(** X3: loading two tables one after the other as one file.  When both
    load, so does their concatenation, and each identifier gets the codes
    of the first table followed by those of the second; when the first
    fails, the concatenation fails with the same error. *)
Theorem load_of_concatenated_tables (headers f1 f2 : list pystr) :
  (∀ s1 s2,
     get_semantic_types f1 headers = Ok s1 →
     get_semantic_types f2 headers = Ok s2 →
     ∃ s, get_semantic_types (f1 ++ f2) headers = Ok s
          ∧ ∀ c, default [] (s !! c)
                 = default [] (s1 !! c) ++ default [] (s2 !! c))
  ∧ (∀ e, get_semantic_types f1 headers = Raise e →
          get_semantic_types (f1 ++ f2) headers = Raise e).
Proof.
  split.
  - intros s1 s2 H1 H2.
    assert (Hall : Forall (loadable headers) (f1 ++ f2)).
    { apply Forall_app. split; by eapply get_semantic_types_loop_Ok_loadable. }
    destruct (get_semantic_types_loop_loadable headers _ ∅ Hall) as [s Hs].
    exists s. split; [exact Hs|]. intros c.
    destruct (get_semantic_types_loop_lookup _ _ _ _ c Hs) as [-> _].
    destruct (get_semantic_types_loop_lookup _ _ _ _ c H1) as [-> _].
    destruct (get_semantic_types_loop_lookup _ _ _ _ c H2) as [-> _].
    rewrite lookup_empty. simpl. unfold table_stys. by rewrite omap_app.
  - intros e H1. unfold get_semantic_types in *.
    by rewrite get_semantic_types_loop_app, H1.
Qed.

(** The fixture table split in two. *)
Lemma load_of_concatenated_tables_witness :
  ∃ s, get_semantic_types ([py "C0001|T001"] ++ [py "C0001|T002"])
                          Examples.mrsty_header = Ok s
       ∧ ∀ c, default [] (s !! c)
              = default [] ((<[py "C0001" := [py "T001"]]> ∅ : gmap _ _) !! c)
                ++ default [] ((<[py "C0001" := [py "T002"]]> ∅ : gmap _ _) !! c).
Proof.
  destruct (load_of_concatenated_tables Examples.mrsty_header
              [py "C0001|T001"] [py "C0001|T002"]) as [H _].
  apply H; vm_compute; reflexivity.
Defined.


(** ** Parsing a line *)








(** ** The iterator *)

Lemma get_mrconso_iterator_app pre rest headers lang :
  Forall (fun ln => binds headers ln k_lat) pre →
  yields (get_mrconso_iterator (pre ++ rest) headers lang)
  = (row_content headers <$> filter (lat_matches headers lang) pre)
    ++ yields (get_mrconso_iterator rest headers lang)
  ∧ outcome (get_mrconso_iterator (pre ++ rest) headers lang)
    = outcome (get_mrconso_iterator rest headers lang).
Proof.
  induction 1 as [|ln pre [lat Hlat] _ [IHy IHo]]; [done|].
  rewrite <- app_comm_cons, get_mrconso_iterator_cons, Hlat, filter_cons.
  destruct (decide (lat = lang)) as [->|Hne].
  - rewrite decide_True by done. cbn [yields outcome]. by rewrite IHy, IHo.
  - rewrite decide_False by (unfold lat_matches; congruence). done.
Qed.

(** X5: what the vocabulary iterator hands on.  It never prints.  When
    every line binds 'lat' it ends normally, having yielded the parsed
    rows whose language equals the filter, in file order.  Otherwise it
    ends with [KeyError('lat')] at the first line that binds no 'lat',
    having yielded the matching rows that precede this line. *)
Theorem iterator_yields_matching_rows (headers : list pystr) (lang : pystr)
    (path : list pystr) :
  printed (get_mrconso_iterator path headers lang) = []
  ∧ (Forall (fun ln => binds headers ln k_lat) path →
     outcome (get_mrconso_iterator path headers lang) = None
     ∧ yields (get_mrconso_iterator path headers lang)
       = row_content headers <$> filter (lat_matches headers lang) path)
  ∧ (∀ pre ln post,
       path = pre ++ ln :: post →
       Forall (fun ln => binds headers ln k_lat) pre →
       ¬ binds headers ln k_lat →
       outcome (get_mrconso_iterator path headers lang) = Some (KeyError k_lat)
       ∧ yields (get_mrconso_iterator path headers lang)
         = row_content headers <$> filter (lat_matches headers lang) pre).
Proof.
  split_and!.
  - apply get_mrconso_iterator_printed.
  - intros Hall.
    destruct (get_mrconso_iterator_app path [] headers lang Hall) as [Hy Ho].
    rewrite app_nil_r in Hy, Ho. rewrite Hy, Ho. by rewrite app_nil_r.
  - intros pre ln post -> Hpre Hln.
    destruct (get_mrconso_iterator_app pre (ln :: post) headers lang Hpre)
      as [-> ->].
    rewrite get_mrconso_iterator_cons.
    destruct (row_content headers ln !! k_lat) as [lat|] eqn:Hlat.
    + destruct Hln. unfold binds. rewrite Hlat. eauto.
    + cbn. by rewrite app_nil_r.
Qed.

(** The fixture file: three rows with a language, two of them English. *)
Lemma iterator_yields_matching_rows_witness :
  outcome (get_mrconso_iterator Examples.mrconso Examples.mrconso_header
                                Examples.ENG) = None
  ∧ yields (get_mrconso_iterator Examples.mrconso Examples.mrconso_header
                                 Examples.ENG)
    = row_content Examples.mrconso_header
        <$> filter (lat_matches Examples.mrconso_header Examples.ENG)
                   Examples.mrconso.
Proof.
  apply (iterator_yields_matching_rows Examples.mrconso_header Examples.ENG
           Examples.mrconso).
  repeat constructor; vm_compute; eauto.
Defined.

(** ** When the extractor reaches its end *)

Section Completion.

Variable lower : pystr -> pystr.
Variable unidecode : pystr -> pystr.

#[local] Abbreviation xrow := (extract_row lower unidecode).
#[local] Abbreviation xl := (extract_loop lower unidecode).

Lemma extract_row_complete opts sem_types headers ln :
  (∃ r, xrow opts sem_types (row_content headers ln) = Ok r)
  ↔ row_complete sem_types headers ln.
Proof.
  unfold row_complete, binds. split.
  - intros [r Hr].
    apply extract_row_Ok in Hr as (s & ip & Hs & Hc & Hsab & Htty & Hip & _ & _ & Hst).
    split; [repeat constructor; eauto|]. eauto.
  - intros [Hf (c & Hc & [l Hl])].
    apply Forall_cons in Hf as [[s Hs] Hf].
    apply Forall_cons in Hf as [_ Hf].
    apply Forall_cons in Hf as [[sa Hsa] Hf].
    apply Forall_cons in Hf as [[tt Htt] Hf].
    apply Forall_cons in Hf as [[ip Hip] _].
    unfold extract_row, getitem. rewrite Hs, Hc, Hsa, Htt, Hip. simpl.
    rewrite Hl. simpl. eauto.
Qed.

Lemma extract_row_Raise_KeyError opts sem_types content e :
  xrow opts sem_types content = Raise e → ∃ key, e = KeyError key.
Proof.
  unfold extract_row, getitem.
  repeat (match goal with
          | |- context [?d !! ?k] => destruct (d !! k); simpl
          end; try (intros [= <-]; eauto; fail)).
Qed.

(** With a line total of 0 no loop ends normally. *)
Lemma extract_loop_total_zero it opts sem_types i :
  outcome (xl it opts sem_types 0 i) ≠ None.
Proof.
  revert i. induction it as [content rest IH | ln rest IH | | e]; intros i;
    cbn [extract_loop]; rewrite ?truediv_zero; try done.
  - destruct (xrow opts sem_types content); destruct (_ =? 0); cbn; auto.
  - cbn. apply IH.
Qed.

Lemma extract_loop_outcome_None path headers lang opts sem_types total i :
  total ≠ 0 →
  outcome (xl (get_mrconso_iterator path headers lang) opts sem_types total i)
  = None
  ↔ Forall (fun ln => binds headers ln k_lat) path
    ∧ Forall (row_complete sem_types headers)
             (filter (lat_matches headers lang) path).
Proof.
  intros Hnz. revert i. induction path as [|ln path IH]; intros i.
  - cbn. rewrite truediv_nonzero by done. cbn.
    split; [intros _; split; constructor|done].
  - rewrite get_mrconso_iterator_cons, filter_cons, Forall_cons.
    unfold binds at 1.
    destruct (row_content headers ln !! k_lat) as [lat|] eqn:Hlat.
    2:{ cbn. split; [done|]. by intros [[[? [=]] _] _]. }
    destruct (decide (lat = lang)) as [->|Hne].
    2:{ rewrite decide_False by (unfold lat_matches; congruence).
        rewrite IH. naive_solver. }
    rewrite decide_True by done. rewrite Forall_cons.
    rewrite <- (extract_row_complete opts sem_types headers ln).
    cbn [extract_loop]. rewrite truediv_nonzero by done.
    destruct (xrow opts sem_types (row_content headers ln)) as [r|e];
      destruct (_ =? 0); cbn [outcome]; rewrite ?IH;
      naive_solver.
Qed.

Lemma extract_loop_KeyError_only path headers lang opts sem_types total i e :
  total ≠ 0 →
  outcome (xl (get_mrconso_iterator path headers lang) opts sem_types total i)
  = Some e →
  ∃ key, e = KeyError key.
Proof.
  intros Hnz. revert i. induction path as [|ln path IH]; intros i.
  - cbn. by rewrite truediv_nonzero.
  - rewrite get_mrconso_iterator_cons.
    destruct (row_content headers ln !! k_lat) as [lat|];
      [|cbn; intros [= <-]; eauto].
    case_decide; [|apply IH]. cbn [extract_loop].
    rewrite truediv_nonzero by done.
    destruct (xrow opts sem_types (row_content headers ln)) as [r|e'] eqn:Hrow;
      destruct (_ =? 0); cbn [outcome]; try apply IH;
      intros [= <-]; by eapply extract_row_Raise_KeyError.
Qed.

(** The lines of a loop that ends normally, in the order in which they
    are printed: the status lines, then the summary. *)
Lemma extract_loop_printed_exact path headers lang opts sem_types total i :
  let g := xl (get_mrconso_iterator path headers lang) opts sem_types total i in
  let n := Z.of_nat (length (filter (lat_matches headers lang) path)) in
  outcome g = None →
  printed g
  = status_lines total (i + 1) n ++ [CompletedLine (i + n) (Ratio (i + n) total)].
Proof.
  revert i. induction path as [|ln path IH]; intros i; cbn zeta.
  - cbn [get_mrconso_iterator extract_loop].
    destruct (truediv i total) as [q|] eqn:Hq; [|done]. intros _.
    apply truediv_Ok in Hq as [_ ->]. cbn. by rewrite Z.add_0_r.
  - rewrite get_mrconso_iterator_cons, filter_cons.
    destruct (row_content headers ln !! k_lat) as [lat|] eqn:Hlat; [|done].
    destruct (decide (lat = lang)) as [->|Hne].
    2:{ rewrite decide_False by (unfold lat_matches; congruence). apply IH. }
    rewrite decide_True by done. cbn [extract_loop length].
    specialize (IH (i + 1)). cbn zeta in IH.
    rewrite status_lines_S.
    replace (i + Z.of_nat (S (length (filter (lat_matches headers lang) path))))
      with (i + 1 + Z.of_nat (length (filter (lat_matches headers lang) path)))
      by lia.
    destruct (xrow opts sem_types (row_content headers ln)) as [r|e'];
      (destruct (Z.eqb_spec ((i + 1) mod 100000) 0) as [Hm|Hm];
       [ rewrite decide_True by done;
         destruct (truediv (i + 1) total) as [q|] eqn:Hq; [|done];
         apply truediv_Ok in Hq as [_ ->]
       | rewrite decide_False by done ]);
      cbn [outcome printed]; try done;
      intros Hout; by rewrite (IH Hout).
Qed.

End Completion.

Lemma main_raised lower unidecode countlines opts mrconso mrsty H1 H2 :
  raised (main lower unidecode countlines opts mrconso mrsty H1 H2)
  = match get_semantic_types mrsty H2 with
    | Raise e => Some e
    | Ok sem_types =>
        outcome (extract_loop lower unidecode
                   (get_mrconso_iterator mrconso H1 (language opts))
                   opts sem_types (countlines mrconso) 0)
    end.
Proof.
  unfold main, parse_and_encode_ngrams. rewrite parse_loop_raised.
  unfold extract_from_mrconso.
  destruct (get_semantic_types mrsty H2); cbn [outcome build_init raised];
    [|done].
  by destruct (outcome _).
Qed.

(** X6: when a run ends without an exception.  It does so exactly when
    the line total of the vocabulary file is not 0, every vocabulary line
    binds 'lat', the semantic-type table loads, and every row in the
    filter language binds 'str', 'cui', 'sab', 'tty' and 'ispref' and
    names an identifier of the table.  The two text options play no
    role. *)
Theorem run_completes_iff
    (lower unidecode : pystr -> pystr) (countlines : list pystr -> Z)
    (opts : options) (mrconso mrsty : list pystr)
    (HEADERS_MRCONSO HEADERS_MRSTY : list pystr) :
  raised (main lower unidecode countlines opts mrconso mrsty
               HEADERS_MRCONSO HEADERS_MRSTY) = None
  ↔ countlines mrconso ≠ 0
    ∧ Forall (fun ln => binds HEADERS_MRCONSO ln k_lat) mrconso
    ∧ ∃ sem_types,
        get_semantic_types mrsty HEADERS_MRSTY = Ok sem_types
        ∧ Forall (row_complete sem_types HEADERS_MRCONSO)
                 (filter (lat_matches HEADERS_MRCONSO (language opts)) mrconso).
Proof.
  rewrite main_raised.
  destruct (get_semantic_types mrsty HEADERS_MRSTY) as [sem_types|e].
  - destruct (decide (countlines mrconso = 0)) as [Hz|Hnz].
    + rewrite Hz. split; [|naive_solver].
      intros H. by apply extract_loop_total_zero in H.
    + rewrite extract_loop_outcome_None by done. naive_solver.
  - naive_solver.
Qed.

(** X7: what a run that ends without an exception has printed and stored.
    Standard output holds, in this order, the two lines about the
    semantic types, the status lines for the multiples of 100000 among
    the counts of filter-passing rows, and one summary line, which carries
    the number of filter-passing rows and its quotient by the line total;
    the semantic-type store has received one entry for each of these
    rows. *)
Theorem output_of_a_completed_run
    (lower unidecode : pystr -> pystr) (countlines : list pystr -> Z)
    (opts : options) (mrconso mrsty : list pystr)
    (HEADERS_MRCONSO HEADERS_MRSTY : list pystr) :
  let b := main lower unidecode countlines opts mrconso mrsty
                HEADERS_MRCONSO HEADERS_MRSTY in
  let n := Z.of_nat (length (filter (lat_matches HEADERS_MRCONSO (language opts))
                                    mrconso)) in
  let total := countlines mrconso in
  raised b = None →
  stdout b
  = [LoadingLine; DoneLine]
    ++ ((fun j => StatusLine j (Ratio j total))
          <$> filter (fun j => j mod 100000 = 0) (seqZ 1 n))
    ++ [CompletedLine n (Ratio n total)]
  ∧ Z.of_nat (length (cuisty_db b)) = n.
Proof.
  intros b n total Hnone. split.
  - subst b n total. rewrite main_raised in Hnone.
    unfold main, parse_and_encode_ngrams. rewrite parse_loop_stdout.
    unfold extract_from_mrconso.
    destruct (get_semantic_types mrsty HEADERS_MRSTY) as [sem_types|e]; [|done].
    cbn [printed build_init stdout app].
    by rewrite (extract_loop_printed_exact _ _ _ _ _ _ _ _ _ Hnone).
  - destruct (main_records lower unidecode countlines opts mrconso mrsty
                HEADERS_MRCONSO HEADERS_MRSTY)
      as (records & _ & Hsty & _ & rows & _ & Hrec & Hall).
    fold b in Hsty, Hall. rewrite Hsty, length_map.
    apply Forall2_length in Hrec. rewrite <- Hrec, (Hall Hnone). done.
Qed.

(** The three-row fixture. *)
Lemma output_of_a_completed_run_witness :
  let b := Examples.run (Options false false Examples.ENG true) in
  stdout b
  = [LoadingLine; DoneLine]
    ++ ((fun j => StatusLine j (Ratio j 3))
          <$> filter (fun j => j mod 100000 = 0) (seqZ 1 2))
    ++ [CompletedLine 2 (Ratio 2 3)]
  ∧ Z.of_nat (length (cuisty_db b)) = 2.
Proof.
  apply (output_of_a_completed_run
           Examples.latin_lower Examples.latin_unidecode Examples.countlines_spec
           (Options false false Examples.ENG true) Examples.mrconso Examples.mrsty
           Examples.mrconso_header Examples.mrsty_header).
  vm_compute. reflexivity.
Defined.

(** X8: the division by the line total.  A vocabulary file whose line
    total is 0 never gives a run without an exception, whatever its rows;
    and a run ends with [ZeroDivisionError] only when that total is 0. *)
Theorem zero_division_iff_zero_total
    (lower unidecode : pystr -> pystr) (countlines : list pystr -> Z)
    (opts : options) (mrconso mrsty : list pystr)
    (HEADERS_MRCONSO HEADERS_MRSTY : list pystr) :
  let b := main lower unidecode countlines opts mrconso mrsty
                HEADERS_MRCONSO HEADERS_MRSTY in
  (countlines mrconso = 0 → raised b ≠ None)
  ∧ (raised b = Some ZeroDivisionError → countlines mrconso = 0).
Proof.
  intros b. subst b. rewrite main_raised.
  destruct (get_semantic_types mrsty HEADERS_MRSTY) as [sem_types|e] eqn:Hload.
  - split.
    + intros ->. apply extract_loop_total_zero.
    + intros Hz. destruct (decide (countlines mrconso = 0)) as [|Hnz]; [done|].
      by destruct (extract_loop_KeyError_only _ _ _ _ _ _ _ _ _ _ Hnz Hz).
  - split; [done|]. intros [= ->]. exfalso.
    revert Hload. unfold get_semantic_types. generalize (∅ : gmap pystr (list pystr)).
    induction mrsty as [|ln f IH]; intros m; [done|].
    cbn [get_semantic_types_loop]. rewrite get_semantic_types_step_loadable.
    destruct (row_content HEADERS_MRSTY ln !! k_cui); [|done].
    destruct (row_content HEADERS_MRSTY ln !! k_sty); [apply IH|done].
Qed.

(** A file for which the line count says 0 although it holds a row. *)
Lemma zero_division_iff_zero_total_witness :
  raised (main Examples.latin_lower Examples.latin_unidecode (fun _ => 0)
               (Options false false Examples.ENG true)
               [Examples.english_row] Examples.mrsty
               Examples.mrconso_header Examples.mrsty_header) ≠ None.
Proof.
  apply (zero_division_iff_zero_total
           Examples.latin_lower Examples.latin_unidecode (fun _ => 0)
           (Options false false Examples.ENG true)
           [Examples.english_row] Examples.mrsty
           Examples.mrconso_header Examples.mrsty_header).
  reflexivity.
Defined.

(** ** The two text options *)

Lemma extract_row_agree l1 u1 l2 u2 opts sem_types content :
  (lowercase opts = true → ∀ s, l1 s = l2 s) →
  (normalize_unicode opts = true → ∀ s, u1 s = u2 s) →
  extract_row l1 u1 opts sem_types content
  = extract_row l2 u2 opts sem_types content.
Proof.
  intros Hl Hu. unfold extract_row, getitem.
  repeat (match goal with
          | |- context [content !! ?k] => destruct (content !! k); simpl
          end; try done).
  destruct (lowercase opts), (normalize_unicode opts);
    rewrite ?Hl, ?Hu by done; done.
Qed.

Lemma extract_loop_agree l1 u1 l2 u2 it opts sem_types total i :
  (lowercase opts = true → ∀ s, l1 s = l2 s) →
  (normalize_unicode opts = true → ∀ s, u1 s = u2 s) →
  extract_loop l1 u1 it opts sem_types total i
  = extract_loop l2 u2 it opts sem_types total i.
Proof.
  intros Hl Hu. revert i.
  induction it as [content rest IH | ln rest IH | | e]; intros i;
    cbn [extract_loop]; try done.
  - rewrite (extract_row_agree l1 u1 l2 u2) by done. by rewrite IH.
  - by rewrite IH.
Qed.

(** X9: a text function whose option is off is never applied.  Two runs
    that differ only in [str.lower] give the same result in every respect
    when lowercase folding is off, and likewise for [unidecode] when
    normalisation is off, since only the values of a function whose
    option is on can matter. *)
Theorem text_function_unused_when_option_off
    (lower1 unidecode1 lower2 unidecode2 : pystr -> pystr)
    (countlines : list pystr -> Z)
    (opts : options) (mrconso mrsty : list pystr)
    (HEADERS_MRCONSO HEADERS_MRSTY : list pystr) :
  (lowercase opts = true → ∀ s, lower1 s = lower2 s) →
  (normalize_unicode opts = true → ∀ s, unidecode1 s = unidecode2 s) →
  main lower1 unidecode1 countlines opts mrconso mrsty
       HEADERS_MRCONSO HEADERS_MRSTY
  = main lower2 unidecode2 countlines opts mrconso mrsty
         HEADERS_MRCONSO HEADERS_MRSTY.
Proof.
  intros Hl Hu. unfold main, extract_from_mrconso.
  destruct (get_semantic_types mrsty HEADERS_MRSTY); [|done].
  by rewrite (extract_loop_agree lower1 unidecode1 lower2 unidecode2).
Qed.

(** With both options off the stand-ins can be swapped for the identity. *)
Lemma text_function_unused_when_option_off_witness :
  main Examples.latin_lower Examples.latin_unidecode Examples.countlines_spec
       (Options false false Examples.ENG true) Examples.mrconso Examples.mrsty
       Examples.mrconso_header Examples.mrsty_header
  = main (fun s => s) (fun s => s) Examples.countlines_spec
         (Options false false Examples.ENG true) Examples.mrconso Examples.mrsty
         Examples.mrconso_header Examples.mrsty_header.
Proof.
  apply text_function_unused_when_option_off; cbn; discriminate.
Defined.

Section OnlyTheText.

Variables (l1 u1 l2 u2 : pystr -> pystr) (o1 o2 : options).

Lemma extract_row_same_but_text sem_types content :
  match extract_row l1 u1 o1 sem_types content,
        extract_row l2 u2 o2 sem_types content with
  | Ok r1, Ok r2 => same_but_text r1 r2
  | Raise e1, Raise e2 => e1 = e2
  | _, _ => False
  end.
Proof.
  unfold extract_row, getitem, same_but_text.
  repeat (match goal with
          | |- context [?d !! ?k] => destruct (d !! k); simpl
          end; try done).
Qed.

Lemma extract_loop_same_but_text it sem_types total i :
  let g1 := extract_loop l1 u1 it o1 sem_types total i in
  let g2 := extract_loop l2 u2 it o2 sem_types total i in
  outcome g1 = outcome g2
  ∧ printed g1 = printed g2
  ∧ Forall2 same_but_text (yields g1) (yields g2).
Proof.
  revert i. induction it as [content rest IH | ln rest IH | | e]; intros i;
    cbn [extract_loop]; cbn zeta.
  - pose proof (extract_row_same_but_text sem_types content) as Hrow.
    destruct (IH (i + 1)) as (Ho & Hp & Hy).
    destruct (extract_row l1 u1 o1 sem_types content) as [r1|e1],
             (extract_row l2 u2 o2 sem_types content) as [r2|e2];
      try done; subst;
      (destruct (_ =? 0); [destruct (truediv (i + 1) total)|]);
      cbn [outcome printed yields];
      rewrite ?Ho, ?Hp; split_and!; try done; by constructor.
  - destruct (IH i) as (Ho & Hp & Hy). cbn [outcome printed yields].
    by rewrite Ho, Hp.
  - destruct (truediv i total); cbn; split_and!; done || constructor.
  - cbn. split_and!; done || constructor.
Qed.

Lemma filter_qualifies_same_but_text rs1 rs2 :
  Forall2 same_but_text rs1 rs2 →
  cui <$> filter qualifies rs1 = cui <$> filter qualifies rs2.
Proof.
  induction 1 as [|r1 r2 rs1 rs2 (Hc & _ & Hsab & Htty & Hp) _ IH]; [done|].
  assert (Hq : qualifies r1 ↔ qualifies r2).
  { unfold qualifies. by rewrite Hsab, Htty, Hp. }
  rewrite !filter_cons.
  destruct (decide (qualifies r1)) as [H1|H1].
  - rewrite decide_True by tauto. cbn. by rewrite Hc, IH.
  - by rewrite decide_False by tauto.
Qed.

End OnlyTheText.

(** X10: the text options change texts and nothing else.  Two runs on the
    same files and the same language, with any settings of the lowercase
    and normalisation options, end in the same way and print the same
    lines, and their semantic-type stores receive entries that agree, one
    for one, in identifier, semantic types and preferred flag; the
    preferred-term stores receive calls for the same identifiers in the
    same order. *)
Theorem text_options_change_only_texts
    (lower1 unidecode1 lower2 unidecode2 : pystr -> pystr)
    (countlines : list pystr -> Z)
    (opts1 opts2 : options) (mrconso mrsty : list pystr)
    (HEADERS_MRCONSO HEADERS_MRSTY : list pystr) :
  language opts1 = language opts2 →
  save_preferred_terms opts1 = save_preferred_terms opts2 →
  let b1 := main lower1 unidecode1 countlines opts1 mrconso mrsty
                 HEADERS_MRCONSO HEADERS_MRSTY in
  let b2 := main lower2 unidecode2 countlines opts2 mrconso mrsty
                 HEADERS_MRCONSO HEADERS_MRSTY in
  raised b1 = raised b2
  ∧ stdout b1 = stdout b2
  ∧ (fun entry => let '(_, c, s, p) := entry in (c, s, p)) <$> cuisty_db b1
    = (fun entry => let '(_, c, s, p) := entry in (c, s, p)) <$> cuisty_db b2
  ∧ (cuipt_db b1).*1 = (cuipt_db b2).*1.
Proof.
  intros Hlang Hsave b1 b2. subst b1 b2.
  unfold main, parse_and_encode_ngrams.
  rewrite !parse_loop_raised, !parse_loop_stdout, !parse_loop_cuisty.
  unfold extract_from_mrconso. rewrite <- Hlang, <- Hsave.
  destruct (get_semantic_types mrsty HEADERS_MRSTY) as [sem_types|e];
    [|by destruct (save_preferred_terms opts1)].
  destruct (extract_loop_same_but_text lower1 unidecode1 lower2 unidecode2
              opts1 opts2
              (get_mrconso_iterator mrconso HEADERS_MRCONSO (language opts1))
              sem_types (countlines mrconso) 0) as (Ho & Hp & Hy).
  cbn zeta in Ho, Hp, Hy. cbn [outcome printed yields build_init].
  rewrite Ho, Hp. split_and!; try done.
  - cbn [cuisty_db app].
    induction Hy as [|r1 r2 rs1 rs2 (Hc & Hs & _ & _ & Hpr) _ IH]; [done|].
    cbn. cbn in IH. by rewrite Hc, Hs, Hpr, IH.
  - destruct (save_preferred_terms opts1).
    + rewrite !parse_loop_cuipt_some. cbn [cuipt_db app build_init yields].
      assert (Hfst : ∀ rs, (List.map cuipt_entry rs).*1 = cui <$> rs).
      { intros rs. induction rs as [|r rs IH]; [done|]. cbn. by rewrite <- IH. }
      rewrite !Hfst. apply (filter_qualifies_same_but_text _ _ Hy).
    + by rewrite !parse_loop_cuipt_none.
Qed.

(** The fixture run with both options on and with both off. *)
Lemma text_options_change_only_texts_witness :
  let b1 := Examples.run (Options true true Examples.ENG true) in
  let b2 := Examples.run (Options false false Examples.ENG true) in
  raised b1 = raised b2
  ∧ stdout b1 = stdout b2
  ∧ (fun entry => let '(_, c, s, p) := entry in (c, s, p)) <$> cuisty_db b1
    = (fun entry => let '(_, c, s, p) := entry in (c, s, p)) <$> cuisty_db b2
  ∧ (cuipt_db b1).*1 = (cuipt_db b2).*1.
Proof.
  apply (text_options_change_only_texts
           Examples.latin_lower Examples.latin_unidecode
           Examples.latin_lower Examples.latin_unidecode
           Examples.countlines_spec
           (Options true true Examples.ENG true)
           (Options false false Examples.ENG true)
           Examples.mrconso Examples.mrsty
           Examples.mrconso_header Examples.mrsty_header); reflexivity.
Defined.

(** ** The three stores side by side *)

Section Stores.

Implicit Types (it : gen term_record) (b : build) (d : option pystr)
  (l : list pystr) (seen : gset pystr).

Lemma parse_loop_simstring_terms it d b :
  simstring_terms (parse_loop it d b)
  = simstring_terms b ∪ list_to_set (List.map term (yields it)).
Proof.
  revert b. induction it as [r rest IH | ln rest IH | | e]; intros b;
    cbn [parse_loop yields List.map list_to_set].
  - rewrite IH. unfold parse_step.
    destruct d; repeat case_decide; cbn [simstring_terms]; set_solver.
  - by rewrite IH.
  - set_solver.
  - cbn. set_solver.
Qed.

Lemma length_first_occurrences l : (length (first_occurrences l) ≤ length l)%nat.
Proof.
  unfold first_occurrences.
  assert (H : ∀ (f : nat → option pystr) ks,
             (length (omap f ks) ≤ length ks)%nat).
  { intros f ks. induction ks as [|k ks IH]; csimpl; [done|].
    destruct (f k); cbn; lia. }
  etrans; [apply H|]. by rewrite length_seq.
Qed.

Lemma first_occurrences_after_app seen l1 l2 :
  first_occurrences_after seen (l1 ++ l2)
  = first_occurrences_after seen l1
    ++ first_occurrences_after (seen ∪ list_to_set l1) l2.
Proof.
  revert seen. induction l1 as [|x l1 IH]; intros seen.
  - cbn [app list_to_set]. rewrite first_occurrences_after_nil.
    by replace (seen ∪ ∅) with seen by set_solver.
  - rewrite <- app_comm_cons, !first_occurrences_after_cons.
    cbn [list_to_set]. case_decide; rewrite IH.
    + do 2 f_equal. set_solver.
    + cbn [app]. do 3 f_equal. set_solver.
Qed.

End Stores.

(** X11: what the builder forwards.  The semantic-type store receives one
    entry for every record of the stream, in stream order, so a repeated
    text gives repeated entries; the similarity index and the
    preferred-term store each receive at most as many insertions as there
    are records; and without a directory for it the preferred-term store
    receives none. *)
Theorem every_record_reaches_the_semantic_type_store
    (extracted_it : gen term_record) (cuipt_dir : option pystr) :
  let b := parse_and_encode_ngrams extracted_it cuipt_dir in
  cuisty_db b
  = (fun r => (term r, cui r, stys r, preferred r)) <$> yields extracted_it
  ∧ (length (ss_db b) ≤ length (yields extracted_it))%nat
  ∧ (length (cuipt_db b) ≤ length (yields extracted_it))%nat
  ∧ cuipt_db (parse_and_encode_ngrams extracted_it None) = [].
Proof.
  intros b. subst b. split_and!.
  - unfold parse_and_encode_ngrams. rewrite parse_loop_cuisty. cbn.
    induction (yields extracted_it) as [|r rs IH]; [done|]. cbn. by rewrite IH.
  - rewrite parse_and_encode_ngrams_ss_db.
    etrans; [apply length_first_occurrences|]. by rewrite length_map.
  - unfold parse_and_encode_ngrams. destruct cuipt_dir.
    + rewrite parse_loop_cuipt_some. cbn. rewrite length_map. apply length_filter.
    + rewrite parse_loop_cuipt_none. cbn. lia.
  - unfold parse_and_encode_ngrams. by rewrite parse_loop_cuipt_none.
Qed.

(** X12: the stores agree with one another.  At the end of the loop the
    dedup set is the set of the texts inserted into the similarity index;
    a text is in the similarity index exactly when the semantic-type store
    has an entry under it; and every call on the preferred-term store,
    for an identifier and a text, has in the semantic-type store an entry
    for this text and identifier with the preferred flag 1. *)
Theorem stores_agree
    (extracted_it : gen term_record) (cuipt_dir : option pystr) :
  let b := parse_and_encode_ngrams extracted_it cuipt_dir in
  simstring_terms b = list_to_set (ss_db b)
  ∧ (∀ t, t ∈ ss_db b ↔ ∃ c s p, (t, c, s, p) ∈ cuisty_db b)
  ∧ (∀ c t, (c, t) ∈ cuipt_db b → ∃ s, (t, c, s, 1) ∈ cuisty_db b).
Proof.
  intros b. subst b.
  assert (Hin : ∀ t, t ∈ first_occurrences (term <$> yields extracted_it)
                     ↔ t ∈ term <$> yields extracted_it).
  { intros t. rewrite <- first_occurrences_after_empty,
      elem_of_first_occurrences_after. set_solver. }
  split_and!.
  - rewrite parse_and_encode_ngrams_ss_db. unfold parse_and_encode_ngrams.
    rewrite parse_loop_simstring_terms. cbn [build_init simstring_terms].
    map_as_fmap.
    apply set_eq. intros t. rewrite !elem_of_union, !elem_of_list_to_set, Hin.
    set_solver.
  - intros t. rewrite parse_and_encode_ngrams_ss_db.
    unfold parse_and_encode_ngrams. rewrite parse_loop_cuisty. cbn.
    map_as_fmap. rewrite Hin, list_elem_of_fmap. split.
    + intros (r & -> & Hr). exists (cui r), (stys r), (preferred r).
      apply list_elem_of_fmap. by exists r.
    + intros (c & s & p & H). apply list_elem_of_fmap in H.
      destruct H as (r & [= -> _ _ _] & Hr). by exists r.
  - intros c t. unfold parse_and_encode_ngrams.
    rewrite parse_loop_cuisty.
    destruct cuipt_dir.
    + rewrite parse_loop_cuipt_some. cbn. map_as_fmap.
      rewrite list_elem_of_fmap.
      intros (r & [= -> ->] & Hr).
      apply list_elem_of_filter in Hr as [(Hp & _ & _) Hr].
      exists (stys r). apply list_elem_of_fmap. exists r.
      by rewrite <- Hp.
    + rewrite parse_loop_cuipt_none. cbn. by intros ?%elem_of_nil.
Qed.

(** A stream of one preferred record. *)
Lemma stores_agree_witness :
  let r := TermRecord (py "a") (py "C0001") [py "T001"] (py "MTH") (py "PN") 1 in
  let b := parse_and_encode_ngrams (Yield r Return) (Some cuipt_path) in
  ∃ s, (py "a", py "C0001", s, 1) ∈ cuisty_db b.
Proof.
  intros r.
  destruct (stores_agree (Yield r Return) (Some cuipt_path)) as (_ & _ & H).
  apply (H (py "C0001") (py "a")).
  vm_compute. constructor.
Defined.

(** X13: the stores only grow.  When the records of one stream are an
    initial segment of the records of another, the insertions that each
    store receives for the first stream are an initial segment of those
    it receives for the second: reading further rows never removes,
    changes or reorders what was inserted before. *)
Theorem stores_grow_with_the_stream
    (it1 it2 : gen term_record) (cuipt_dir : option pystr) :
  yields it1 `prefix_of` yields it2 →
  let b1 := parse_and_encode_ngrams it1 cuipt_dir in
  let b2 := parse_and_encode_ngrams it2 cuipt_dir in
  ss_db b1 `prefix_of` ss_db b2
  ∧ cuisty_db b1 `prefix_of` cuisty_db b2
  ∧ cuipt_db b1 `prefix_of` cuipt_db b2.
Proof.
  intros [more Hmore] b1 b2. subst b1 b2. split_and!.
  - rewrite !parse_and_encode_ngrams_ss_db, Hmore, List.map_app.
    rewrite <- !first_occurrences_after_empty, first_occurrences_after_app.
    by eexists.
  - unfold parse_and_encode_ngrams.
    rewrite !parse_loop_cuisty, Hmore, List.map_app. cbn. by eexists.
  - unfold parse_and_encode_ngrams. destruct cuipt_dir.
    + rewrite !parse_loop_cuipt_some, Hmore, filter_app, List.map_app. cbn.
      by eexists.
    + by rewrite !parse_loop_cuipt_none.
Qed.

(** A stream and the same stream cut after its first record. *)
Lemma stores_grow_with_the_stream_witness :
  let r t := TermRecord (py t) (py "C0001") [py "T001"] (py "MTH") (py "PN") 1 in
  let b1 := parse_and_encode_ngrams
              (Yield (r "a"%string) (Throw ZeroDivisionError))
              (Some cuipt_path) in
  let b2 := parse_and_encode_ngrams
              (Yield (r "a"%string) (Yield (r "b"%string) Return))
              (Some cuipt_path) in
  ss_db b1 `prefix_of` ss_db b2
  ∧ cuisty_db b1 `prefix_of` cuisty_db b2
  ∧ cuipt_db b1 `prefix_of` cuipt_db b2.
Proof.
  intros r.
  apply (stores_grow_with_the_stream
           (Yield (r "a"%string) (Throw ZeroDivisionError))
           (Yield (r "a"%string) (Yield (r "b"%string) Return))
           (Some cuipt_path)).
  cbn. by eexists.
Defined.

(** X14: what every entry of the semantic-type store of a run looks like:
    its sequence of semantic types is not empty, its identifier has a line
    in the semantic-type table, and its preferred flag is 0 or 1. *)
Theorem semantic_type_entries_well_formed
    (lower unidecode : pystr -> pystr) (countlines : list pystr -> Z)
    (opts : options) (mrconso mrsty : list pystr)
    (HEADERS_MRCONSO HEADERS_MRSTY : list pystr) :
  Forall (fun entry =>
            let '(_, c, semantic_types, flag) := entry in
            semantic_types ≠ []
            ∧ table_stys HEADERS_MRSTY mrsty c ≠ []
            ∧ (flag = 0 ∨ flag = 1))
         (cuisty_db (main lower unidecode countlines opts mrconso mrsty
                          HEADERS_MRCONSO HEADERS_MRSTY)).
Proof.
  destruct (main_records lower unidecode countlines opts mrconso mrsty
              HEADERS_MRCONSO HEADERS_MRSTY)
    as (records & _ & -> & _ & rows & _ & Hrec & _).
  apply Forall_fmap, Forall_forall. intros r Hr. simpl.
  apply (Forall2_Forall_r _ (fun r =>
           stys r ≠ [] ∧ table_stys HEADERS_MRSTY mrsty (cui r) ≠ []
           ∧ (preferred r = 0 ∨ preferred r = 1))) in Hrec.
  - rewrite Forall_forall in Hrec. by apply Hrec.
  - apply Forall_forall. intros ln _ r' (sem & Hload & Hrow).
    apply extract_row_Ok in Hrow as (s & ip & _ & _ & _ & _ & _ & Hp & _ & Hst).
    pose proof (get_semantic_types_lookup _ _ _ _ _ Hload Hst) as Heq.
    destruct (get_semantic_types_loop_lookup _ _ _ _ (cui r') Hload) as [_ Hdom].
    assert (Hne : table_stys HEADERS_MRSTY mrsty (cui r') ≠ []).
    { destruct Hdom as [[? H]|H]; [by rewrite Hst|by rewrite lookup_empty in H|done]. }
    split_and!; [by rewrite Heq|done|].
    rewrite Hp. case_decide; auto.
Qed.

(** ** The entry point *)

Section Entry.

Variable lower : pystr -> pystr.
Variable unidecode : option (pystr -> pystr).
Variable countlines : list pystr -> Z.

Implicit Types (w : world) (opts : options).

Lemma listdir_length_zero (entries : gmap pystr node) :
  length (map_to_list entries).*1 = 0%nat ↔ entries = ∅.
Proof.
  rewrite length_fmap. split.
  - intros H. by apply map_to_list_empty_iff, nil_length_inv.
  - intros ->. by rewrite map_to_list_empty.
Qed.

(** The first half of the preparation, case by case. *)
Lemma ready_destination_cases w :
  ready_destination lower w
  = match dest w with
    | NotADirectory => (inl OSError, w)
    | Missing =>
        match stdin w with
        | [] => (inl EOFError, World Missing [] (console w ++ [AskCreate]))
        | answer :: rest =>
            if says_yes lower answer
            then (inr tt, World (Directory ∅) rest (console w ++ [AskCreate]))
            else (inl (SystemExit 1),
                  World Missing rest (console w ++ [AskCreate; Aborting]))
        end
    | Directory entries =>
        if decide (entries = ∅) then (inr tt, w)
        else match stdin w with
             | [] => (inl EOFError,
                      World (Directory entries) [] (console w ++ [AskEmpty]))
             | answer :: rest =>
                 if says_yes lower answer
                 then (inr tt, World (Directory ∅) rest (console w ++ [AskEmpty]))
                 else (inl (SystemExit 1),
                       World (Directory entries) rest
                             (console w ++ [AskEmpty; Aborting]))
             end
    end.
Proof.
  destruct w as [[| |entries] input out];
    unfold ready_destination, then_, path_exists, six_input, listdir, makedirs,
      os_mkdir, makedirs, rmtree, print, exit, ret; cbn.
  - destruct input as [|answer rest]; [done|]. cbn.
    destruct (says_yes lower answer); cbn; [|by rewrite <- app_assoc].
    rewrite map_to_list_empty. cbn. done.
  - done.
  - destruct (decide (entries = ∅)) as [->|Hne].
    + rewrite map_to_list_empty. cbn. done.
    + rewrite decide_True.
      2:{ destruct (length (map_to_list entries).*1) eqn:Hlen; [|lia].
          by apply listdir_length_zero in Hlen. }
      destruct input as [|answer rest]; [done|]. cbn.
      destruct (says_yes lower answer); cbn; [done|by rewrite <- app_assoc].
Qed.

(** The flag files written into an empty destination. *)
Lemma write_flags_empty opts input out :
  write_flags unidecode opts (World (Directory ∅) input out)
  = if normalize_unicode opts && bool_decide (unidecode = None)
    then (inl (SystemExit 1),
          World (Directory ∅) input (out ++ [UnidecodeNeeded]))
    else (inr tt,
          World (Directory
                   (<[language_flag := File (language opts)]>
                      ((if lowercase opts
                        then <[lowercase_flag := File []]> else (fun m => m))
                         ((if normalize_unicode opts
                           then <[normalize_unicode_flag := File []]>
                           else (fun m => m)) ∅))))
                input out).
Proof.
  unfold write_flags, then_, write_file, print, exit, ret.
  destruct (normalize_unicode opts), unidecode as [u|], (lowercase opts);
    cbn; rewrite ?lookup_empty; try done;
    rewrite ?lookup_insert_ne by (by vm_compute);
    rewrite ?lookup_empty; try done;
    rewrite ?lookup_insert_ne by (by vm_compute);
    rewrite ?lookup_insert_ne by (by vm_compute);
    rewrite ?lookup_empty; done.
Qed.

End Entry.

Section EntryRun.

Variable lower : pystr -> pystr.
Variable unidecode : option (pystr -> pystr).
Variable countlines : list pystr -> Z.

(** From a ready, empty destination to the end of [main]. *)
Lemma main_entry_from_empty opts mrconso mrsty H1 H2 w input out :
  ready_destination lower w = (inr tt, World (Directory ∅) input out) →
  main_entry lower unidecode countlines opts mrconso mrsty H1 H2 w
  = if normalize_unicode opts && bool_decide (unidecode = None)
    then (inl (SystemExit 1),
          World (Directory ∅) input (out ++ [UnidecodeNeeded]))
    else (inr (main lower (default (fun s => s) unidecode) countlines opts
                    mrconso mrsty H1 H2),
          World (Directory (installed opts)) input out).
Proof.
  intros Hready.
  unfold main_entry, prepare_destination, then_ at 1 2 3 4 5.
  rewrite Hready, write_flags_empty.
  destruct (normalize_unicode opts && bool_decide (unidecode = None)); [done|].
  unfold installed, then_, mkdir, ret.
  destruct (normalize_unicode opts), (lowercase opts),
    (save_preferred_terms opts); cbn;
    repeat (rewrite ?lookup_insert_ne by (by vm_compute);
            rewrite ?lookup_empty; cbn); done.
Qed.

(** When does [ready_destination] return, and with what. *)
Lemma ready_destination_inr w w' :
  ready_destination lower w = (inr tt, w') →
  dest w' = Directory ∅
  ∧ ((stdin w' = stdin w ∧ console w' = console w)
     ∨ ∃ answer question,
         stdin w = answer :: stdin w'
         ∧ says_yes lower answer = true
         ∧ console w' = console w ++ [question]
         ∧ is_question question = true).
Proof.
  rewrite ready_destination_cases.
  destruct w as [[| |entries] input out]; cbn; [|done|].
  - destruct input as [|answer rest]; [done|].
    destruct (says_yes lower answer) eqn:Hyes; intros [= <-]; cbn.
    split; [done|]. right. by exists answer, AskCreate.
  - destruct (decide (entries = ∅)) as [->|Hne].
    + intros [= <-]. cbn. auto.
    + destruct input as [|answer rest]; [done|].
      destruct (says_yes lower answer) eqn:Hyes; intros [= <-]; cbn.
      split; [done|]. right. by exists answer, AskEmpty.
Qed.

End EntryRun.


(** X15: an answer other than 'y' changes nothing.  When the destination
    is missing, or is a directory that is not empty, and the line typed in
    reply to the question does not read 'y' once folded to lowercase and
    stripped, the process prints 'Aborting.' and exits with status 1; the
    destination is what it was, and the pipeline has not run. *)
Theorem declining_changes_nothing
    (lower : pystr -> pystr) (unidecode : option (pystr -> pystr))
    (countlines : list pystr -> Z) (opts : options)
    (mrconso mrsty HEADERS_MRCONSO HEADERS_MRSTY : list pystr)
    (w : world) (answer : pystr) (rest : list pystr) :
  stdin w = answer :: rest →
  strip (lower answer) ≠ py "y" →
  (dest w = Missing ∨ ∃ entries, dest w = Directory entries ∧ entries ≠ ∅) →
  ∃ question,
    main_entry lower unidecode countlines opts mrconso mrsty
               HEADERS_MRCONSO HEADERS_MRSTY w
    = (inl (SystemExit 1),
       World (dest w) rest (console w ++ [question; Aborting])).
Proof.
  intros Hin Hno Hdest.
  assert (Hyes : says_yes lower answer = false).
  { unfold says_yes. by apply bool_decide_eq_false. }
  unfold main_entry, prepare_destination, then_ at 1 2 3 4 5.
  rewrite ready_destination_cases, Hin.
  destruct Hdest as [->|(entries & -> & Hne)].
  - rewrite Hyes. by exists AskCreate.
  - rewrite decide_False, Hyes by done. by exists AskEmpty.
Qed.

(** A destination with one file in it, and the answer 'no'. *)
Lemma declining_changes_nothing_witness :
  ∃ question,
    main_entry Examples.latin_lower (Some Examples.latin_unidecode)
               Examples.countlines_spec EntryExamples.opts
               Examples.mrconso Examples.mrsty
               Examples.mrconso_header Examples.mrsty_header
               (EntryExamples.start (py "no"))
    = (inl (SystemExit 1),
       World (Directory EntryExamples.old_entries) []
             ([] ++ [question; Aborting])).
Proof.
  apply (declining_changes_nothing
           Examples.latin_lower (Some Examples.latin_unidecode)
           Examples.countlines_spec EntryExamples.opts
           Examples.mrconso Examples.mrsty
           Examples.mrconso_header Examples.mrsty_header
           (EntryExamples.start (py "no")) (py "no") []).
  - reflexivity.
  - by vm_compute.
  - right. exists EntryExamples.old_entries. split; [reflexivity|].
    intros H. apply (f_equal (fun m => m !! py "notes.txt")) in H.
    by vm_compute in H.
Defined.

(** X16: normalisation requested without [unidecode].  The pipeline never
    runs.  The check comes after the destination has been made ready:
    when the destination is a directory that is not empty and the answer
    to the question is 'y', the process exits with status 1 leaving the
    destination empty, with its former entries removed and no flag file
    written. *)
Theorem missing_unidecode_exits_after_emptying
    (lower : pystr -> pystr) (countlines : list pystr -> Z) (opts : options)
    (mrconso mrsty HEADERS_MRCONSO HEADERS_MRSTY : list pystr) (w : world) :
  normalize_unicode opts = true →
  (∀ b w', main_entry lower None countlines opts mrconso mrsty
                      HEADERS_MRCONSO HEADERS_MRSTY w ≠ (inr b, w'))
  ∧ (∀ entries answer rest,
       dest w = Directory entries → entries ≠ ∅ →
       stdin w = answer :: rest →
       strip (lower answer) = py "y" →
       main_entry lower None countlines opts mrconso mrsty
                  HEADERS_MRCONSO HEADERS_MRSTY w
       = (inl (SystemExit 1),
          World (Directory ∅) rest (console w ++ [AskEmpty; UnidecodeNeeded]))).
Proof.
  intros Hnorm. split.
  - intros b w'.
    destruct (ready_destination lower w) as [[e|[]] w1] eqn:Hready.
    + unfold main_entry, prepare_destination, then_ at 1 2 3 4 5.
      by rewrite Hready.
    + destruct (ready_destination_inr lower w w1 Hready) as [Hd _].
      destruct w1 as [d input out]. cbn in Hd. subst d.
      rewrite (main_entry_from_empty lower None countlines opts mrconso mrsty
                 HEADERS_MRCONSO HEADERS_MRSTY w input out Hready).
      by rewrite Hnorm.
  - intros entries answer rest Hd Hne Hin Hyes.
    assert (Hready : ready_destination lower w
                     = (inr tt, World (Directory ∅) rest (console w ++ [AskEmpty]))).
    { rewrite ready_destination_cases, Hd, Hin, decide_False by done.
      unfold says_yes. by rewrite bool_decide_eq_true_2. }
    rewrite (main_entry_from_empty lower None countlines opts mrconso mrsty
               HEADERS_MRCONSO HEADERS_MRSTY w _ _ Hready).
    rewrite Hnorm. cbn. by rewrite <- app_assoc.
Qed.

(** A destination with one file in it, and the answer ' Y'. *)
Lemma missing_unidecode_exits_after_emptying_witness :
  main_entry Examples.latin_lower None Examples.countlines_spec
             EntryExamples.opts Examples.mrconso Examples.mrsty
             Examples.mrconso_header Examples.mrsty_header
             (EntryExamples.start (py " Y"))
  = (inl (SystemExit 1),
     World (Directory ∅) [] ([] ++ [AskEmpty; UnidecodeNeeded])).
Proof.
  destruct (missing_unidecode_exits_after_emptying
              Examples.latin_lower Examples.countlines_spec EntryExamples.opts
              Examples.mrconso Examples.mrsty
              Examples.mrconso_header Examples.mrsty_header
              (EntryExamples.start (py " Y"))) as [_ H].
  - reflexivity.
  - apply (H EntryExamples.old_entries (py " Y") []).
    + reflexivity.
    + intros He. apply (f_equal (fun m => m !! py "notes.txt")) in He.
      by vm_compute in He.
    + reflexivity.
    + vm_compute. reflexivity.
Defined.

Lemma installed_lookups opts :
  installed opts !! language_flag = Some (File (language opts))
  ∧ installed opts !! lowercase_flag
    = (if lowercase opts then Some (File []) else None)
  ∧ installed opts !! normalize_unicode_flag
    = (if normalize_unicode opts then Some (File []) else None)
  ∧ installed opts !! simstring_dir = Some Folder
  ∧ installed opts !! cuisty_dir = Some Folder
  ∧ installed opts !! cuipt_path
    = (if save_preferred_terms opts then Some Folder else None)
  ∧ (∀ name, is_Some (installed opts !! name) →
             name ∈ [language_flag; lowercase_flag; normalize_unicode_flag;
                     simstring_dir; cuisty_dir; cuipt_path]).
Proof.
  unfold installed.
  destruct (normalize_unicode opts), (lowercase opts),
    (save_preferred_terms opts); cbn;
    (split_and!; [by vm_compute..|]);
    intros name Hname; apply elem_of_dom in Hname; revert Hname;
    rewrite ?dom_insert_L, dom_empty_L; set_solver.
Qed.

(** X17: what a run that reaches the pipeline leaves behind.  Whenever
    [main] gets as far as the builder, the destination is a directory
    that holds nothing from before, only: 'language.flag' with the
    language code as its text; 'lowercase.flag' exactly when lowercase
    folding is on; 'normalize-unicode.flag' exactly when normalisation is
    on; the directories of the similarity index and of the semantic-type
    store; and the directory of the preferred-term store exactly when
    that store was asked for.  The four options can thus be read back
    from the destination.  The stores are those of the pipeline run on
    the two tables. *)
Theorem completed_setup_records_the_options
    (lower : pystr -> pystr) (unidecode : option (pystr -> pystr))
    (countlines : list pystr -> Z) (opts : options)
    (mrconso mrsty HEADERS_MRCONSO HEADERS_MRSTY : list pystr)
    (w w' : world) (b : build) :
  main_entry lower unidecode countlines opts mrconso mrsty
             HEADERS_MRCONSO HEADERS_MRSTY w = (inr b, w') →
  b = main lower (default (fun s => s) unidecode) countlines opts
           mrconso mrsty HEADERS_MRCONSO HEADERS_MRSTY
  ∧ (normalize_unicode opts = true → is_Some unidecode)
  ∧ ∃ entries,
      dest w' = Directory entries
      ∧ entries !! language_flag = Some (File (language opts))
      ∧ entries !! lowercase_flag
        = (if lowercase opts then Some (File []) else None)
      ∧ entries !! normalize_unicode_flag
        = (if normalize_unicode opts then Some (File []) else None)
      ∧ entries !! simstring_dir = Some Folder
      ∧ entries !! cuisty_dir = Some Folder
      ∧ entries !! cuipt_path
        = (if save_preferred_terms opts then Some Folder else None)
      ∧ (∀ name, is_Some (entries !! name) →
                 name ∈ [language_flag; lowercase_flag; normalize_unicode_flag;
                         simstring_dir; cuisty_dir; cuipt_path]).
Proof.
  destruct (ready_destination lower w) as [[e|[]] w1] eqn:Hready.
  { unfold main_entry, prepare_destination, then_ at 1 2 3 4 5.
    by rewrite Hready. }
  destruct (ready_destination_inr lower w w1 Hready) as [Hd _].
  destruct w1 as [d input out]. cbn in Hd. subst d.
  rewrite (main_entry_from_empty lower unidecode countlines opts mrconso mrsty
             HEADERS_MRCONSO HEADERS_MRSTY w input out Hready).
  destruct (normalize_unicode opts) eqn:Hn, unidecode as [u|] eqn:Hu; cbn;
    try done; intros [= <- <-]; (split_and!; [done|eauto; done|]);
    exists (installed opts); (split; [done|]);
    pose proof (installed_lookups opts) as H; rewrite Hn in H; exact H.
Qed.

(** An empty destination and the fixture tables. *)
Lemma completed_setup_records_the_options_witness :
  ∃ entries : gmap pystr node,
    entries !! language_flag = Some (File Examples.ENG)
    ∧ entries !! lowercase_flag = Some (File [])
    ∧ entries !! cuipt_path = Some Folder.
Proof.
  destruct (completed_setup_records_the_options
              Examples.latin_lower (Some Examples.latin_unidecode)
              Examples.countlines_spec EntryExamples.opts
              Examples.mrconso Examples.mrsty
              Examples.mrconso_header Examples.mrsty_header
              (World (Directory ∅) [] [])
              (World (Directory (installed EntryExamples.opts)) [] [])
              (main Examples.latin_lower Examples.latin_unidecode
                    Examples.countlines_spec EntryExamples.opts
                    Examples.mrconso Examples.mrsty
                    Examples.mrconso_header Examples.mrsty_header))
    as (_ & _ & entries & _ & Hlang & Hlow & _ & _ & _ & Hpt & _).
  - vm_compute. reflexivity.
  - exists entries. auto.
Defined.

Lemma main_entry_stops_with_ready_destination
    (lower : pystr -> pystr) (unidecode : option (pystr -> pystr))
    (countlines : list pystr -> Z) (opts : options)
    (mrconso mrsty HEADERS_MRCONSO HEADERS_MRSTY : list pystr)
    (w w1 : world) (e : ending) :
  ready_destination lower w = (inl e, w1) →
  main_entry lower unidecode countlines opts mrconso mrsty
             HEADERS_MRCONSO HEADERS_MRSTY w = (inl e, w1).
Proof.
  intros Hready.
  unfold main_entry, prepare_destination, then_ at 1 2 3 4 5.
  by rewrite Hready.
Qed.

(** X18: at most one question is asked, and at most one line of the input
    is read: the console gains at most one question and the input loses
    at most its first line, because a destination that has just been
    created is empty and is not asked about again. *)
Theorem at_most_one_question
    (lower : pystr -> pystr) (unidecode : option (pystr -> pystr))
    (countlines : list pystr -> Z) (opts : options)
    (mrconso mrsty HEADERS_MRCONSO HEADERS_MRSTY : list pystr) (w : world) :
  let w' := (main_entry lower unidecode countlines opts mrconso mrsty
                        HEADERS_MRCONSO HEADERS_MRSTY w).2 in
  ∃ said,
    console w' = console w ++ said
    ∧ (length (filter is_question said) ≤ 1)%nat
    ∧ (stdin w' = stdin w ∨ stdin w' = tail (stdin w)).
Proof.
  cbn zeta.
  destruct (ready_destination lower w) as [[e|[]] w1] eqn:Hready.
  - rewrite (main_entry_stops_with_ready_destination
               lower unidecode countlines opts mrconso mrsty
               HEADERS_MRCONSO HEADERS_MRSTY w w1 e Hready).
    cbn [snd]. revert Hready. rewrite ready_destination_cases.
    destruct w as [[| |entries] input out]; cbn [dest stdin console].
    + destruct input as [|answer rest]; [|destruct (says_yes lower answer)];
        intros [= <- <-]; cbn [stdin console tail]; eexists;
        (split; [reflexivity|]); (split; [vm_compute; lia|auto]).
    + intros [= <- <-]. exists []. cbn [stdin console].
      rewrite app_nil_r. split; [done|]. split; [vm_compute; lia|auto].
    + case_decide; [done|].
      destruct input as [|answer rest]; [|destruct (says_yes lower answer)];
        intros [= <- <-]; cbn [stdin console tail]; eexists;
        (split; [reflexivity|]); (split; [vm_compute; lia|auto]).
  - destruct (ready_destination_inr lower w w1 Hready) as [Hd Hio].
    destruct w1 as [d input out]. cbn [dest stdin console] in Hd, Hio. subst d.
    rewrite (main_entry_from_empty lower unidecode countlines opts mrconso mrsty
               HEADERS_MRCONSO HEADERS_MRSTY w input out Hready).
    destruct Hio as [[-> ->]|(answer & question & Hin & _ & -> & Hq)].
    + destruct (_ && _); cbn [snd stdin console].
      * exists [UnidecodeNeeded]. split; [done|].
        split; [vm_compute; lia|auto].
      * exists []. rewrite app_nil_r. split; [done|].
        split; [vm_compute; lia|auto].
    + rewrite Hin. destruct (_ && _); cbn [snd stdin console tail].
      * exists [question; UnidecodeNeeded]. rewrite <- app_assoc.
        split; [done|]. split; [|auto].
        destruct question; vm_compute; lia.
      * exists [question]. split; [done|]. split; [|auto].
        destruct question; vm_compute; lia.
Qed.
